(** * Luminara editor: the import-path rewriter [refactor_imports.py]

    A shallow embedding of [crates/luminara_editor/src/refactor_imports.py]:
    the mapping table [MAPPINGS], the fragment of Python's [re] module the
    table uses (literal characters and the [\b] assertion), [re.sub],
    [process_file] over a file store with a console, and the [os.walk] loop
    of [main]. *)

From Equations Require Import Equations.
From Stdlib Require Import String Ascii.
From Stdlib Require Import List Arith NArith Bool Lia Permutation.
Import ListNotations.
Open Scope list_scope.

(** * The program *)

(** ** Text

    A Python [str] is a sequence of Unicode code points. *)

Definition text := list N.

Definition codes (s : string) : text :=
  map N_of_ascii (list_ascii_of_string s).

Definition is_ascii_alnum (c : N) : bool :=
  ((48 <=? c) && (c <=? 57) || (65 <=? c) && (c <=? 90)
   || (97 <=? c) && (c <=? 122))%N.

Section WithUnicode.

(** [\w] on a [str] pattern is [str.isalnum()] or the underscore.  Below 128
    that is the ASCII letters and digits; above, it is a lookup in the
    Unicode character database, which is not part of the repository and is
    taken as a parameter. *)
Variable unicode_isalnum : N -> bool.

(** ** The regular-expression fragment *)

Definition is_word (c : N) : bool :=
  if (c <? 128)%N then is_ascii_alnum c || (c =? 95)%N
  else unicode_isalnum c.

Definition word_opt (c : option N) : bool :=
  match c with Some c => is_word c | None => false end.

(** The fragment of the pattern language [MAPPINGS] is written in. *)
Inductive atom : Type :=
| Chr (c : N)
| WordB.

Definition regex := list atom.

Definition is_special (c : N) : bool :=
  existsb (N.eqb c) (codes ".^$*+?{}[]|()").

(** [re.compile]: a backslash followed by [b] is the word-boundary
    assertion; an unescaped non-special character stands for itself.  Any
    other construct is outside the fragment and yields [None]. *)
Fixpoint parse (p : text) : option regex :=
  match p with
  | [] => Some []
  | 92%N :: 98%N :: p' => option_map (cons WordB) (parse p')
  | 92%N :: _ => None
  | c :: p' => if is_special c then None else option_map (cons (Chr c)) (parse p')
  end.

Definition compile (pattern : string) : option regex := parse (codes pattern).

(** [SRE_AT_BOUNDARY]: the characters on the two sides of the position
    differ in word-ness; outside the string counts as non-word. *)
Definition at_boundary (prev : option N) (s : text) : bool :=
  xorb (word_opt prev) (word_opt (hd_error s)).

(** Match [re] at the head of [s], [prev] being the character before it.
    Returns the character before the end of the match and the rest. *)
Fixpoint match_here (re : regex) (prev : option N) (s : text)
  : option (option N * text) :=
  match re with
  | [] => Some (prev, s)
  | Chr c :: re' =>
      match s with
      | d :: s' => if (c =? d)%N then match_here re' (Some d) s' else None
      | [] => None
      end
  | WordB :: re' =>
      if at_boundary prev s then match_here re' prev s else None
  end.

(** [re.sub(pattern, repl, s)] for a compiled pattern and a replacement
    template without backslashes: scan left to right, replace the match
    found at the current position and resume after it, otherwise copy one
    character.  An empty match is replaced and the scan moves on by one
    character (the behaviour of Python 3.7 and later). *)
Equations sub_from (re : regex) (repl : text) (prev : option N) (s : text)
  : text by wf (length s) lt :=
  sub_from re repl prev s with match_here re prev s := {
    | Some (prev', rest) with lt_dec (length rest) (length s) := {
        | left Hlt => repl ++ sub_from re repl prev' rest
        | right _ with s := {
            | [] => repl
            | c :: s' => repl ++ c :: sub_from re repl (Some c) s' } }
    | None with s := {
        | [] => []
        | c :: s' => c :: sub_from re repl (Some c) s' } }.

Definition sub (re : regex) (repl : text) (s : text) : text :=
  sub_from re repl None s.

(** [re.search(pattern, s) is not None]: the pattern matches at some
    position of [s], the end included. *)
Fixpoint search_from (re : regex) (prev : option N) (s : text) : bool :=
  match match_here re prev s with
  | Some _ => true
  | None =>
      match s with
      | [] => false
      | c :: s' => search_from re (Some c) s'
      end
  end.

Definition re_search (pattern : string) (content : text) : option bool :=
  option_map (fun re => search_from re None content) (compile pattern).

(** ** The mapping table and the per-file transform *)

Definition MAPPINGS : list (string * string) :=
  [ ("crate::app\b", "crate::core::app");
    ("crate::window\b", "crate::core::window");
    ("crate::preferences\b", "crate::core::preferences");
    ("crate::commands\b", "crate::core::commands");
    ("crate::input\b", "crate::core::input");
    ("crate::settings\b", "crate::core::settings");
    ("crate::viewport\b", "crate::core::viewport");
    ("crate::engine\b", "crate::services::engine_bridge");
    ("crate::backend_ai\b", "crate::services::ai_agent");
    ("crate::asset_source\b", "crate::services::asset_server");
    ("crate::theme\b", "crate::ui::theme");
    ("crate::activity_bar\b", "crate::ui::layouts::activity_bar");
    ("crate::resizable_panel\b", "crate::ui::layouts::resizable_panel");
    ("crate::director\b", "crate::features::director");
    ("crate::logic_graph\b", "crate::features::logic_graph");
    ("crate::assetvault\b", "crate::features::asset_vault");
    ("crate::extension\b", "crate::features::extension");
    ("crate::account\b", "crate::features::account");
    ("crate::scenebuilder\b", "crate::features::scene_builder");
    ("crate::global_search\b", "crate::features::global_search") ]%string.

(** [re.sub(pattern, replacement, content)] on the source strings.  [None]
    stands for a pattern or a replacement template outside the fragment. *)
Definition re_sub (pattern replacement : string) (content : text)
  : option text :=
  match compile pattern with
  | Some re =>
      if existsb (N.eqb 92) (codes replacement) then None
      else Some (sub re (codes replacement) content)
  | None => None
  end.

(** The loop [for pattern, replacement in MAPPINGS.items(): ...]. *)
Fixpoint apply_items (items : list (string * string)) (content : text)
  : option text :=
  match items with
  | [] => Some content
  | (pattern, replacement) :: items' =>
      match re_sub pattern replacement content with
      | Some content' => apply_items items' content'
      | None => None
      end
  end.

Definition transform (content : text) : option text :=
  apply_items MAPPINGS content.

(** ** Files and console *)

Inductive exn : Type :=
| FileNotFoundError
| PermissionError
| UnicodeDecodeError
| OSError
| ReError.

(** What [open(path, 'w')] followed by [f.write] does to a file: succeed;
    fail at [open], before the file is truncated; or fail in the middle of
    the write, after [kept] characters. *)
Inductive write_mode : Type :=
| WriteOk
| WriteDenied
| WriteBroken (kept : nat).

(** A path either reads as text (what [f.read()] returns) or raises. *)
Inductive file : Type :=
| File (content : text) (wm : write_mode)
| Unreadable (e : exn).

Record world : Type := World {
  files : string -> file;
  console : list string
}.

Inductive result : Type :=
| Returned
| Raised (e : exn).

Definition set_file (fs : string -> file) (path : string) (f : file)
  : string -> file :=
  fun q => if String.eqb q path then f else fs q.

Fixpoint text_eqb (a b : text) : bool :=
  match a, b with
  | [], [] => true
  | c :: a', d :: b' => (c =? d)%N && text_eqb a' b'
  | _, _ => false
  end.

Definition process_file (filepath : string) (w : world) : result * world :=
  match files w filepath with
  | Unreadable e => (Raised e, w)
  | File content wm =>
      let original := content in
      match transform content with
      | None => (Raised ReError, w)
      | Some content' =>
          if text_eqb content' original then (Returned, w)
          else
            match wm with
            | WriteOk =>
                (Returned,
                 World (set_file (files w) filepath (File content' wm))
                       (console w ++ [("Updated " ++ filepath)%string]))
            | WriteDenied => (Raised PermissionError, w)
            | WriteBroken kept =>
                (Raised OSError,
                 World (set_file (files w) filepath
                                 (File (firstn kept content') wm))
                       (console w))
            end
      end
  end.

(** ** The directory walk *)

(** A directory: its name, the names of its files, its subdirectories. *)
#[warnings="-register-all"]
Inductive tree : Type :=
| Dir (name : string) (fnames : list string) (subdirs : list tree).

Definition dir_name (t : tree) : string :=
  match t with Dir name _ _ => name end.

Definition src_dir : string := "c:\dev\Luminara-Engine\crates\luminara_editor\src".

(** [os.path.join(root, name)] for a directory-entry [name] and a [root]
    that does not end in a separator; the separator is the platform's. *)
Variable os_sep : ascii.

Definition path_join (root name : string) : string :=
  (root ++ String os_sep name)%string.

(** [os.walk(top)], top-down: the triple of [top], then the walks of its
    subdirectories in listing order. *)
Fixpoint walk (top : string) (t : tree)
  : list (string * list string * list string) :=
  match t with
  | Dir _ fnames subdirs =>
      (top, map dir_name subdirs, fnames)
      :: (fix walk_dirs (ds : list tree) :=
            match ds with
            | [] => []
            | d :: ds' => walk (path_join top (dir_name d)) d ++ walk_dirs ds'
            end) subdirs
  end.

Definition endswith (s suffix : string) : bool :=
  (String.length suffix <=? String.length s)
  && String.eqb (substring (String.length s - String.length suffix)
                           (String.length suffix) s) suffix.

(** The inner loop [for file in files: ...]. *)
Fixpoint for_files (root : string) (fnames : list string) (w : world)
  : result * world :=
  match fnames with
  | [] => (Returned, w)
  | file :: fnames' =>
      if endswith file ".rs" then
        if String.eqb file "lib.rs" && String.eqb root src_dir
        then for_files root fnames' w
        else
          match process_file (path_join root file) w with
          | (Returned, w') => for_files root fnames' w'
          | (Raised e, w') => (Raised e, w')
          end
      else for_files root fnames' w
  end.

(** The outer loop [for root, dirs, files in os.walk(src_dir): ...]. *)
Fixpoint for_walk (triples : list (string * list string * list string))
  (w : world) : result * world :=
  match triples with
  | [] => (Returned, w)
  | (root, _, fnames) :: triples' =>
      match for_files root fnames w with
      | (Returned, w') => for_walk triples' w'
      | (Raised e, w') => (Raised e, w')
      end
  end.

Definition main (t : tree) (w : world) : result * world :=
  for_walk (walk src_dir t) w.

(** * Definitions for the specification *)

(** ** Patterns of the form [literal\b]

    Every pattern of the table is a literal followed by one [\b].  For such
    a pattern the matcher reduces to a prefix test plus a look at the next
    character, and the scan of [re.sub] to three equations. *)

Definition lit_re (w : text) : regex := map Chr w ++ [WordB].

(** [pm w s]: [s] starts with [w] and the character after it, if any, is not
    a word character. *)
Fixpoint pm (w s : text) : bool :=
  match w with
  | [] => negb (word_opt (hd_error s))
  | c :: w' =>
      match s with
      | d :: s' => (c =? d)%N && pm w' s'
      | [] => false
      end
  end.

Definition last_opt (w : text) (prev : option N) : option N :=
  fold_left (fun _ c => Some c) w prev.

(** A literal that is not empty and ends in a word character. *)
Definition wordy (w : text) : bool :=
  match w with
  | [] => false
  | _ => word_opt (last_opt w None)
  end.

(** [re.search] restricted to these patterns: some position matches. *)
Fixpoint search (w s : text) : bool :=
  pm w s || match s with [] => false | _ :: s' => search w s' end.

Definition ssub (w repl s : text) : text := sub (lit_re w) repl s.

(** The search token of a pattern: the pattern without its final [\b]. *)
Definition token (pattern : string) : text :=
  removelast (removelast (codes pattern)).

Definition rules : list (text * text) :=
  map (fun '(p, r) => (token p, codes r)) MAPPINGS.

Fixpoint run_rules (rs : list (text * text)) (s : text) : text :=
  match rs with
  | [] => s
  | (w, r) :: rs' => run_rules rs' (ssub w r s)
  end.

Definition simple_item (it : string * string) : Prop :=
  compile (fst it) = Some (lit_re (token (fst it)))
  /\ existsb (N.eqb 92) (codes (snd it)) = false
  /\ wordy (token (fst it)) = true.

(** ** Stability of the table under its own replacements

    [clash w t]: whatever follows [t], the literal [w] with its boundary
    does not match at the head of [t].  It is a static test on the table. *)

Fixpoint clash (w t : text) : bool :=
  match w, t with
  | [], d :: _ => is_word d
  | c :: w', d :: t' => negb (c =? d)%N || clash w' t'
  | _, [] => false
  end.

Fixpoint all_suffix_clash (w t : text) : bool :=
  clash w t && match w with [] => true | _ :: w' => all_suffix_clash w' t end.

(** The non-empty suffixes of a text. *)
Fixpoint tails (t : text) : list text :=
  match t with
  | [] => []
  | _ :: t' => t :: tails t'
  end.

(** Rule [(wp, rp)] leaves the matches of [wq] alone: [wq] cannot match at
    the start of the replacement, nor inside it, nor across its start. *)
Definition ok_pair (wq : text) (p : text * text) : bool :=
  all_suffix_clash wq (snd p) && forallb (clash wq) (tails (tl (snd p))).

Definition stable (rs : list (text * text)) : bool :=
  forallb (fun q => forallb (ok_pair (fst q)) rs) rs.

(** A match of [wq] that is not at the same time a match of [wp]. *)
Fixpoint search_excl (wq wp s : text) : bool :=
  pm wq s && negb (pm wp s)
  || match s with [] => false | _ :: s' => search_excl wq wp s' end.

(** ** Occurrences of a fixed text *)

Fixpoint starts_with (k s : text) : bool :=
  match k with
  | [] => true
  | c :: k' =>
      match s with
      | d :: s' => (c =? d)%N && starts_with k' s'
      | [] => false
      end
  end.

Fixpoint contains (k s : text) : bool :=
  starts_with k s || match s with [] => false | _ :: s' => contains k s' end.

(** ** Spans kept and spans replaced *)

(** [Rewrite re repl prev s out]: [out] is [s] with some matches of [re]
    replaced by [repl]; every character outside the replaced matches is
    kept, in place and in order. *)
Inductive Rewrite (re : regex) (repl : text)
  : option N -> text -> text -> Prop :=
| Rewrite_nil prev : Rewrite re repl prev [] []
| Rewrite_keep prev c s out :
    Rewrite re repl (Some c) s out ->
    Rewrite re repl prev (c :: s) (c :: out)
| Rewrite_hit prev m rest prev' out :
    match_here re prev (m ++ rest) = Some (prev', rest) ->
    Rewrite re repl prev' rest out ->
    Rewrite re repl prev (m ++ rest) (repl ++ out).

(** One such pass per table entry, in order. *)
Inductive Frames : list (string * string) -> text -> text -> Prop :=
| Frames_nil s : Frames [] s s
| Frames_cons p r items re s s1 s2 :
    compile p = Some re ->
    Rewrite re (codes r) None s s1 ->
    Frames items s1 s2 ->
    Frames ((p, r) :: items) s s2.

(** ** Lines *)

Fixpoint join_lines (ls : list text) : text :=
  match ls with
  | [] => []
  | l :: ls' =>
      match ls' with
      | [] => l
      | _ :: _ => l ++ 10%N :: join_lines ls'
      end
  end.

(** ** Tokens followed by a word character

    [clashw w t]: when a word character follows [t], the literal [w] with
    its boundary does not match at the head of [t]. *)

Fixpoint clashw (w t : text) : bool :=
  match w, t with
  | [], [] => true
  | [], d :: _ => is_word d
  | c :: w', d :: t' => negb (c =? d)%N || clashw w' t'
  | _ :: _, [] => false
  end.

Fixpoint all_suffix_clashw (w t : text) : bool :=
  clashw w t && match w with [] => true | _ :: w' => all_suffix_clashw w' t end.

(** Rule [(wq, rq)] cannot touch an occurrence of the token [wp] that a
    word character follows: it matches neither at a position of the
    occurrence nor across its start, and its replacement begins like its
    literal. *)
Definition guards (wp : text) (q : text * text) : bool :=
  forallb (clashw (fst q)) (tails wp)
  && all_suffix_clashw (fst q) wp
  && match fst q, snd q with
     | c :: _, d :: _ => (c =? d)%N
     | _, _ => false
     end.

(** [pm_in w a]: [w] matches at the head of [a], its boundary being decided
    inside [a] or by a word character right after [a]. *)
Fixpoint pm_in (w a : text) : bool :=
  match w with
  | [] => match a with [] => false | d :: _ => negb (is_word d) end
  | c :: w' =>
      match a with
      | d :: a' => (c =? d)%N && pm_in w' a'
      | [] => false
      end
  end.

(** ** Global substitution, as a relation

    The spec's reading of one table entry: every non-overlapping match of
    the pattern, found from left to right, is replaced. *)

(** No match of [re] starts at a position of [u], in the text [u ++ z] that
    follows the character [prev]. *)
Definition no_match_in (re : regex) (prev : option N) (u z : text) : Prop :=
  forall u1 u2, u = u1 ++ u2 -> u2 <> [] ->
    match_here re (last_opt u1 prev) (u2 ++ z) = None.

Inductive Subst (re : regex) (repl : text) : option N -> text -> text -> Prop :=
| Subst_end prev s :
    no_match_in re prev s [] ->
    match_here re (last_opt s prev) [] = None ->
    Subst re repl prev s s
| Subst_match prev u m rest prev' out :
    no_match_in re prev u (m ++ rest) ->
    match_here re (last_opt u prev) (m ++ rest) = Some (prev', rest) ->
    m <> [] ->
    Subst re repl prev' rest out ->
    Subst re repl prev (u ++ m ++ rest) (u ++ repl ++ out).

(** The table applied in declaration order, each entry to the result of
    the entries before it. *)
Inductive Chain : list (string * string) -> text -> text -> Prop :=
| Chain_nil s : Chain [] s s
| Chain_cons p r items re s s1 s2 :
    compile p = Some re ->
    Subst re (codes r) None s s1 ->
    Chain items s1 s2 ->
    Chain ((p, r) :: items) s s2.

(** ** The walk as a sequence of calls *)

(** Processing a list of paths in order, stopping at the first exception. *)
Fixpoint process_all (paths : list string) (w : world) : result * world :=
  match paths with
  | [] => (Returned, w)
  | p :: paths' =>
      match process_file p w with
      | (Returned, w') => process_all paths' w'
      | (Raised e, w') => (Raised e, w')
      end
  end.

Definition wanted (root file : string) : bool :=
  endswith file ".rs" && negb (String.eqb file "lib.rs" && String.eqb root src_dir).

Definition calls_in (root : string) (fnames : list string) : list string :=
  map (path_join root) (filter (wanted root) fnames).

(** The paths [main] hands to [process_file], in order. *)
Fixpoint calls (triples : list (string * list string * list string))
  : list string :=
  match triples with
  | [] => []
  | (root, _, fnames) :: triples' => calls_in root fnames ++ calls triples'
  end.

(** The files of a tree, each with the chain of subdirectory names that
    leads to it from the top. *)
Fixpoint entries (t : tree) : list (list string * string) :=
  match t with
  | Dir _ fnames subdirs =>
      map (pair []) fnames
      ++ (fix entries_dirs (ds : list tree) :=
            match ds with
            | [] => []
            | d :: ds' =>
                map (fun e => (dir_name d :: fst e, snd e)) (entries d)
                ++ entries_dirs ds'
            end) subdirs
  end.

Inductive in_tree : tree -> list string -> string -> Prop :=
| in_here name fnames subdirs f :
    In f fnames -> in_tree (Dir name fnames subdirs) [] f
| in_below name fnames subdirs d chain f :
    In d subdirs -> in_tree d chain f ->
    in_tree (Dir name fnames subdirs) (dir_name d :: chain) f.

Definition dir_path (top : string) (chain : list string) : string :=
  fold_left path_join chain top.

Definition entry_path (top : string) (e : list string * string) : string :=
  path_join (dir_path top (fst e)) (snd e).

Definition is_nil {A} (l : list A) : bool :=
  match l with [] => true | _ => false end.

(** The selection rule in the spec's words: the suffix, and the excluded
    name only directly in the root. *)
Definition keep (e : list string * string) : bool :=
  endswith (snd e) ".rs" && negb (is_nil (fst e) && String.eqb (snd e) "lib.rs").

(** A failure of the file system while [process_file] runs on [p]: the file
    cannot be read, or its content changes and it cannot be written. *)
Inductive io_failure (p : string) (w : world) : exn -> Prop :=
| read_failure e :
    files w p = Unreadable e -> io_failure p w e
| write_denied c c' :
    files w p = File c WriteDenied -> transform c = Some c' -> c' <> c ->
    io_failure p w PermissionError
| write_broken c c' kept :
    files w p = File c (WriteBroken kept) -> transform c = Some c' -> c' <> c ->
    io_failure p w OSError.

(** ** Running twice *)

(** A file on which [process_file] has nothing to do. *)
Definition settled (f : file) : bool :=
  match f with
  | File c _ => text_eqb (run_rules rules c) c
  | Unreadable _ => false
  end.



(** ** One simultaneous pass

    [msub rs s] scans [s] once from left to right and, at each position,
    replaces the token of whichever rule matches there. *)

Definition hit_rule (rs : list (text * text)) (s : text) : option (text * text) :=
  find (fun wr => pm (fst wr) s) rs.

Equations msub (rs : list (text * text)) (s : text) : text by wf (length s) lt :=
  msub rs [] := [];
  msub rs (c :: s') with hit_rule rs (c :: s') := {
    | Some (w, r) with lt_dec (length (skipn (length w) (c :: s'))) (length (c :: s')) := {
        | left _ => r ++ msub rs (skipn (length w) (c :: s'))
        | right _ => c :: msub rs s' }
    | None => c :: msub rs s' }.

(** [clashb w t]: when [t] is followed by the end of the text or by a
    character that is not a word character, the literal [w] with its
    boundary does not match at the head of [t]. *)
Fixpoint clashb (w t : text) : bool :=
  match w, t with
  | [], [] => false
  | [], d :: _ => is_word d
  | c :: w', d :: t' => negb (c =? d)%N || clashb w' t'
  | c :: _, [] => is_word c
  end.

Definition same_head (wr : text * text) : bool :=
  match fst wr, snd wr with
  | c :: _, d :: _ => (c =? d)%N
  | _, _ => false
  end.

Definition same_rule (x y : text * text) : bool :=
  text_eqb (fst x) (fst y) && text_eqb (snd x) (snd y).

(** Rule [x] and rule [y] do not interfere: [y]'s token matches neither in
    [x]'s replacement nor across its start, [x]'s token does not match
    inside an occurrence of [y]'s, and the two tokens never match at the
    same position unless the rules are the same. *)
Definition apart (x y : text * text) : bool :=
  ok_pair (fst y) x
  && clash (fst y) (snd x)
  && forallb (clashb (fst x)) (tails (tl (fst y)))
  && same_head x
  && (same_rule x y || clash (fst x) (fst y) || clash (fst y) (fst x)).

Definition coherent (rs : list (text * text)) : bool :=
  forallb (fun x => wordy (fst x) && forallb (apart x) rs) rs.

(** ** A small run

    A Unicode table without alphanumerics above 127, three files directly
    in the root directory, the second of which cannot be read. *)

Definition ascii_only : N -> bool := fun _ => false.

Definition app_rs : string :=
  "c:\dev\Luminara-Engine\crates\luminara_editor\src\app.rs".

Definition broken_rs : string :=
  "c:\dev\Luminara-Engine\crates\luminara_editor\src\broken.rs".

Definition late_rs : string :=
  "c:\dev\Luminara-Engine\crates\luminara_editor\src\late.rs".

Definition small_files : string -> file :=
  fun q =>
    if String.eqb q app_rs then File (codes "use crate::app::Foo;") WriteOk
    else if String.eqb q broken_rs then Unreadable PermissionError
    else if String.eqb q late_rs then File (codes "use crate::window;") WriteOk
    else Unreadable FileNotFoundError.

Definition small_world : world := World small_files [].

Definition small_tree : tree :=
  Dir "src" ["app.rs"; "broken.rs"; "late.rs"]%string [].

(** The same directory without the file that cannot be read. *)
Definition tidy_tree : tree :=
  Dir "src" ["app.rs"; "late.rs"; "notes.txt"]%string [].

Definition notes_txt : string :=
  "c:\dev\Luminara-Engine\crates\luminara_editor\src\notes.txt".

(** * Proofs *)

(** ** Unfolding [re.sub] *)

Lemma sub_from_match re repl prev s prev' rest :
  match_here re prev s = Some (prev', rest) ->
  length rest < length s ->
  sub_from re repl prev s = repl ++ sub_from re repl prev' rest.
Proof.
  intros H Hlt. rewrite (sub_from_equation_1 re repl prev s), H. simpl.
  destruct (lt_dec _ _) as [?|Hge]; [reflexivity | contradiction].
Qed.

Lemma sub_from_nomatch_nil re repl prev :
  match_here re prev [] = None -> sub_from re repl prev [] = [].
Proof.
  intro H. rewrite (sub_from_equation_1 re repl prev []), H. reflexivity.
Qed.

Lemma sub_from_nomatch_cons re repl prev c s :
  match_here re prev (c :: s) = None ->
  sub_from re repl prev (c :: s) = c :: sub_from re repl (Some c) s.
Proof.
  intro H. rewrite (sub_from_equation_1 re repl prev (c :: s)), H. reflexivity.
Qed.

(** ** Patterns of the form [literal\b] *)

Lemma last_opt_nonempty w : w <> [] -> forall p q, last_opt w p = last_opt w q.
Proof.
  destruct w as [|c w]; [congruence|]. intros _ p q. reflexivity.
Qed.

Lemma match_here_lit w : forall prev s,
  word_opt (last_opt w prev) = true ->
  match_here (lit_re w) prev s =
    if pm w s then Some (last_opt w prev, skipn (length w) s) else None.
Proof.
  unfold lit_re. induction w as [|c w IH]; intros prev s Hw; simpl.
  - unfold at_boundary. simpl in Hw. rewrite Hw. simpl.
    destruct (word_opt (hd_error s)); reflexivity.
  - destruct s as [|d s]; [reflexivity|].
    destruct (c =? d)%N eqn:E; [|reflexivity].
    apply N.eqb_eq in E. subst d. simpl. apply IH. exact Hw.
Qed.

Lemma pm_length w : forall s, pm w s = true -> length w <= length s.
Proof.
  induction w as [|c w IH]; intros s H; simpl in *; [lia|].
  destruct s as [|d s]; [discriminate|].
  apply andb_true_iff in H as [_ H]. apply IH in H. simpl. lia.
Qed.

Lemma pm_firstn w : forall s, pm w s = true -> firstn (length w) s = w.
Proof.
  induction w as [|c w IH]; intros s H; simpl in *; [reflexivity|].
  destruct s as [|d s]; [discriminate|].
  apply andb_true_iff in H as [E H]. apply N.eqb_eq in E. subst d.
  simpl. f_equal. auto.
Qed.

Lemma pm_split w s : pm w s = true -> s = w ++ skipn (length w) s.
Proof.
  intro H. rewrite <- (firstn_skipn (length w) s) at 1.
  rewrite (pm_firstn w s H). reflexivity.
Qed.

Lemma search_from_lit w : wordy w = true ->
  forall s prev, search_from (lit_re w) prev s = search w s.
Proof.
  intros Hw s. assert (Hl : forall prev, word_opt (last_opt w prev) = true).
  { intro prev. destruct w as [|c w']; [discriminate|]. exact Hw. }
  induction s as [|c s IH]; intro prev; simpl;
    rewrite match_here_lit by apply Hl.
  - destruct (pm w []); reflexivity.
  - destruct (pm w (c :: s)); [reflexivity|]. apply IH.
Qed.

Section Scan.

Variables w repl : text.
Hypothesis w_wordy : wordy w = true.

Lemma w_nonempty : w <> [].
Proof. destruct w; [discriminate | congruence]. Qed.

Lemma w_length : 0 < length w.
Proof. destruct w; [discriminate | simpl; lia]. Qed.

Lemma w_last prev : word_opt (last_opt w prev) = true.
Proof.
  rewrite (last_opt_nonempty w w_nonempty prev None).
  unfold wordy in w_wordy. destruct w; [discriminate | exact w_wordy].
Qed.

Lemma pm_nil : pm w [] = false.
Proof. destruct w; [discriminate | reflexivity]. Qed.

Lemma sub_from_nil prev : sub_from (lit_re w) repl prev [] = [].
Proof.
  apply sub_from_nomatch_nil.
  rewrite match_here_lit by apply w_last. rewrite pm_nil. reflexivity.
Qed.

Lemma sub_from_hit prev s : pm w s = true ->
  sub_from (lit_re w) repl prev s =
    repl ++ sub_from (lit_re w) repl (last_opt w prev) (skipn (length w) s).
Proof.
  intro H. apply sub_from_match.
  - rewrite match_here_lit by apply w_last. rewrite H. reflexivity.
  - rewrite length_skipn.
    pose proof (pm_length _ _ H). pose proof w_length. lia.
Qed.

Lemma sub_from_miss prev c s : pm w (c :: s) = false ->
  sub_from (lit_re w) repl prev (c :: s) =
    c :: sub_from (lit_re w) repl (Some c) s.
Proof.
  intro H. apply sub_from_nomatch_cons.
  rewrite match_here_lit by apply w_last. rewrite H. reflexivity.
Qed.

(** Induction along the scan. *)
Lemma scan_ind (P : text -> Prop) :
  P [] ->
  (forall s, pm w s = true -> P (skipn (length w) s) -> P s) ->
  (forall c s, pm w (c :: s) = false -> P s -> P (c :: s)) ->
  forall s, P s.
Proof.
  intros Hnil Hhit Hmiss s.
  remember (length s) as n eqn:Hn. revert s Hn.
  induction n as [n IH] using lt_wf_ind. intros s Hn.
  destruct (pm w s) eqn:E.
  - apply Hhit; [exact E|].
    apply (IH (length (skipn (length w) s))); [|reflexivity].
    rewrite length_skipn. pose proof (pm_length _ _ E). pose proof w_length. lia.
  - destruct s as [|c s]; [exact Hnil|].
    apply Hmiss; [exact E|]. apply (IH (length s)); [simpl in Hn; lia | reflexivity].
Qed.

(** The scan does not depend on the character before its start. *)
Lemma sub_from_prev : forall s prev, sub_from (lit_re w) repl prev s = ssub w repl s.
Proof.
  unfold ssub, sub. intro s. pattern s. apply scan_ind; clear s.
  - intro prev. rewrite (sub_from_nil prev), (sub_from_nil None). reflexivity.
  - intros s H IH prev. rewrite (sub_from_hit prev s H), (sub_from_hit None s H).
    rewrite (IH (last_opt w prev)), (IH (last_opt w None)). reflexivity.
  - intros c s H IH prev.
    rewrite (sub_from_miss prev c s H), (sub_from_miss None c s H). reflexivity.
Qed.

Lemma ssub_nil : ssub w repl [] = [].
Proof. apply sub_from_nil. Qed.

Lemma ssub_hit s : pm w s = true ->
  ssub w repl s = repl ++ ssub w repl (skipn (length w) s).
Proof.
  intro H. unfold ssub at 1. unfold sub. rewrite (sub_from_hit None s H).
  rewrite sub_from_prev. reflexivity.
Qed.

Lemma ssub_miss c s : pm w (c :: s) = false ->
  ssub w repl (c :: s) = c :: ssub w repl s.
Proof.
  intro H. unfold ssub at 1. unfold sub. rewrite (sub_from_miss None c s H).
  rewrite sub_from_prev. reflexivity.
Qed.

(** No match anywhere: the substitution is the identity. *)
Lemma ssub_no_match : forall s, search w s = false -> ssub w repl s = s.
Proof.
  induction s as [|c s IH]; intro H.
  - apply ssub_nil.
  - simpl in H. apply orb_false_iff in H as [H1 H2].
    rewrite ssub_miss by exact H1. f_equal. auto.
Qed.

End Scan.

(** ** The table in compiled form *)

Lemma MAPPINGS_simple : Forall simple_item MAPPINGS.
Proof. repeat constructor. Qed.

Lemma apply_items_run items : Forall simple_item items ->
  forall s, apply_items items s =
            Some (run_rules (map (fun '(p, r) => (token p, codes r)) items) s).
Proof.
  induction 1 as [|[p r] items [Hc [Hr _]] _ IH]; intro s; simpl; [reflexivity|].
  unfold re_sub. simpl in Hc, Hr. rewrite Hc, Hr. apply IH.
Qed.

Lemma transform_run s : transform s = Some (run_rules rules s).
Proof. apply apply_items_run, MAPPINGS_simple. Qed.

Lemma rules_wordy : Forall (fun wr => wordy (fst wr) = true) rules.
Proof.
  unfold rules. apply Forall_map.
  eapply Forall_impl; [|exact MAPPINGS_simple].
  intros [p r] [_ [_ H]]. exact H.
Qed.

(** ** Stability of the table under its own replacements *)

Lemma clash_sound w : forall t z, clash w t = true -> pm w (t ++ z) = false.
Proof.
  induction w as [|c w IH]; intros [|d t] z H; simpl in *; try discriminate.
  - rewrite H. reflexivity.
  - apply orb_true_iff in H as [H|H].
    + apply negb_true_iff in H. rewrite H. reflexivity.
    + rewrite (IH _ _ H). apply andb_false_r.
Qed.

Lemma all_suffix_clash_head w t : all_suffix_clash w t = true -> clash w t = true.
Proof.
  destruct w; unfold all_suffix_clash; fold all_suffix_clash; intro H;
    apply andb_true_iff in H as [H _]; exact H.
Qed.

Lemma all_suffix_clash_tail c w t :
  all_suffix_clash (c :: w) t = true -> all_suffix_clash w t = true.
Proof.
  unfold all_suffix_clash at 1; fold all_suffix_clash. intro H.
  apply andb_true_iff in H as [_ H]. exact H.
Qed.

Lemma search_app w : forall t z, search w (t ++ z) = true ->
  (exists t', In t' (tails t) /\ pm w (t' ++ z) = true) \/ search w z = true.
Proof.
  induction t as [|d t IH]; intros z H; [right; exact H|].
  simpl in H. apply orb_true_iff in H as [H|H].
  - left. exists (d :: t). split; [left; reflexivity | exact H].
  - destruct (IH z H) as [[t' [Hin Hpm]]|Hz]; [left | right; exact Hz].
    exists t'. split; [right; exact Hin | exact Hpm].
Qed.

Lemma search_skipn w n : forall s, search w (skipn n s) = true -> search w s = true.
Proof.
  induction n as [|n IH]; intros s H; [exact H|].
  destruct s as [|c s]; [exact H|]. simpl in H |- *.
  rewrite (IH s H). apply orb_true_r.
Qed.

Lemma search_excl_skipn wq wp n : forall s,
  search_excl wq wp (skipn n s) = true -> search_excl wq wp s = true.
Proof.
  induction n as [|n IH]; intros s H; [exact H|].
  destruct s as [|c s]; [exact H|]. simpl in H |- *.
  rewrite (IH s H). apply orb_true_r.
Qed.

Lemma search_excl_self w : forall s, search_excl w w s = false.
Proof.
  induction s as [|c s IH]; simpl.
  - rewrite andb_negb_r. reflexivity.
  - rewrite andb_negb_r, IH. reflexivity.
Qed.

Lemma search_excl_search wq wp : forall s,
  search_excl wq wp s = true -> search wq s = true.
Proof.
  induction s as [|c s IH]; simpl; intro H.
  - rewrite orb_false_r in *. apply andb_true_iff in H as [H _]. rewrite H. reflexivity.
  - apply orb_true_iff in H as [H|H].
    + apply andb_true_iff in H as [H _]. rewrite H. reflexivity.
    + rewrite (IH H). apply orb_true_r.
Qed.

Section Stability.

Variables wp rp : text.
Hypothesis wp_wordy : wordy wp = true.

(** A match in the output that starts in a copied position was a match in
    the input. *)
Lemma pm_through : forall s w,
  all_suffix_clash w rp = true -> pm w (ssub wp rp s) = true -> pm w s = true.
Proof.
  intro s. pattern s. apply (scan_ind wp wp_wordy); clear s.
  - intros w _. rewrite (ssub_nil wp rp wp_wordy). auto.
  - intros s Hs _ w Hw H. rewrite (ssub_hit wp rp wp_wordy s Hs) in H.
    apply all_suffix_clash_head in Hw.
    rewrite (clash_sound _ _ _ Hw) in H. discriminate.
  - intros c s Hs IH w Hw H. rewrite (ssub_miss wp rp wp_wordy c s Hs) in H.
    destruct w as [|d w]; [exact H|].
    simpl in H |- *. apply andb_true_iff in H as [E H].
    rewrite E. simpl. apply IH; [|exact H].
    apply all_suffix_clash_tail in Hw. exact Hw.
Qed.

(** Every match of [wq] in the output of rule [(wp, rp)] comes from a match
    of [wq] in the input at a position where [wp] does not match. *)
Lemma search_ssub wq : wordy wq = true -> ok_pair wq (wp, rp) = true ->
  forall s, search wq (ssub wp rp s) = true -> search_excl wq wp s = true.
Proof.
  intros Hq Hok. unfold ok_pair in Hok. simpl in Hok.
  apply andb_true_iff in Hok as [Hsuf Hin].
  pose proof (all_suffix_clash_head _ _ Hsuf) as Hhead.
  intro s. pattern s. apply (scan_ind wp wp_wordy); clear s.
  - rewrite (ssub_nil wp rp wp_wordy). simpl.
    rewrite (pm_nil wq Hq). discriminate.
  - intros s Hs IH H. rewrite (ssub_hit wp rp wp_wordy s Hs) in H.
    apply search_app in H as [[t' [Ht' Hpm]]|H].
    + exfalso. destruct rp as [|d r']; [destruct Ht'|].
      destruct Ht' as [<-|Ht'].
      * rewrite (clash_sound _ _ _ Hhead) in Hpm. discriminate.
      * simpl in Hin. rewrite forallb_forall in Hin.
        rewrite (clash_sound _ _ _ (Hin _ Ht')) in Hpm. discriminate.
    + eapply search_excl_skipn. apply IH. exact H.
  - intros c s Hs IH H. rewrite (ssub_miss wp rp wp_wordy c s Hs) in H.
    simpl in H. apply orb_true_iff in H as [H|H].
    + rewrite <- (ssub_miss wp rp wp_wordy c s Hs) in H.
      apply pm_through in H; [|exact Hsuf].
      simpl search_excl. rewrite H, Hs. reflexivity.
    + simpl search_excl. rewrite (IH H). apply orb_true_r.
Qed.

Lemma ssub_clears : ok_pair wp (wp, rp) = true ->
  forall s, search wp (ssub wp rp s) = false.
Proof.
  intros Hok s. destruct (search wp (ssub wp rp s)) eqn:E; [|reflexivity].
  apply (search_ssub wp wp_wordy Hok) in E.
  rewrite search_excl_self in E. discriminate.
Qed.

Lemma ssub_keeps_clear wq : wordy wq = true -> ok_pair wq (wp, rp) = true ->
  forall s, search wq s = false -> search wq (ssub wp rp s) = false.
Proof.
  intros Hq Hok s Hs. destruct (search wq (ssub wp rp s)) eqn:E; [|reflexivity].
  apply (search_ssub wq Hq Hok), search_excl_search in E. congruence.
Qed.

End Stability.

Lemma rules_stable : stable rules = true.
Proof. vm_compute. reflexivity. Qed.

Section Fold.

Variable rs : list (text * text).
Hypothesis rs_wordy : Forall (fun wr => wordy (fst wr) = true) rs.
Hypothesis rs_stable : stable rs = true.

Lemma rs_ok q p : In q rs -> In p rs -> ok_pair (fst q) p = true.
Proof.
  intros Hq Hp. unfold stable in rs_stable.
  rewrite forallb_forall in rs_stable. specialize (rs_stable q Hq).
  rewrite forallb_forall in rs_stable. exact (rs_stable p Hp).
Qed.

Lemma rs_wordy_in q : In q rs -> wordy (fst q) = true.
Proof. rewrite Forall_forall in rs_wordy. apply rs_wordy. Qed.

(** Running a tail of the table keeps the tokens already cleared absent and
    clears its own. *)
Lemma run_rules_clear : forall todo done s,
  incl done rs -> incl todo rs ->
  (forall q, In q done -> search (fst q) s = false) ->
  forall q, In q (done ++ todo) -> search (fst q) (run_rules todo s) = false.
Proof.
  induction todo as [|[w r] todo IH]; intros done s Hd Ht Hs q Hq.
  - rewrite app_nil_r in Hq. simpl. auto.
  - simpl. assert (Hw : In (w, r) rs) by (apply Ht; left; reflexivity).
    apply (IH (done ++ [(w, r)])).
    + apply incl_app; [exact Hd|]. intros x [<-|[]]. exact Hw.
    + intros x Hx. apply Ht. right. exact Hx.
    + intros q' Hq'. apply in_app_or in Hq' as [Hq'|[<-|[]]].
      * apply ssub_keeps_clear; auto using rs_wordy_in.
        -- exact (rs_wordy_in _ Hw).
        -- apply (rs_ok q' (w, r)); auto.
      * simpl. apply ssub_clears; [exact (rs_wordy_in _ Hw)|].
        apply (rs_ok (w, r) (w, r)); exact Hw.
    + rewrite <- app_assoc. exact Hq.
Qed.

Lemma run_rules_fixed : forall todo s, incl todo rs ->
  (forall q, In q todo -> search (fst q) s = false) -> run_rules todo s = s.
Proof.
  induction todo as [|[w r] todo IH]; intros s Ht Hs; [reflexivity|].
  simpl. assert (Hw : In (w, r) rs) by (apply Ht; left; reflexivity).
  rewrite (ssub_no_match w r (rs_wordy_in _ Hw)).
  - apply IH; [intros x Hx; apply Ht; right; exact Hx|].
    intros q Hq. apply Hs. right. exact Hq.
  - apply (Hs (w, r)). left. reflexivity.
Qed.

Lemma run_rules_no_match s q : In q rs -> search (fst q) (run_rules rs s) = false.
Proof.
  intro Hq. apply (run_rules_clear rs [] s).
  - intros x [].
  - apply incl_refl.
  - intros x [].
  - exact Hq.
Qed.

End Fold.

(** ** The transform on the table *)

Lemma in_rules p r : In (p, r) MAPPINGS -> In (token p, codes r) rules.
Proof.
  intro H. unfold rules.
  exact (in_map (fun '(p, r) => (token p, codes r)) MAPPINGS (p, r) H).
Qed.

Lemma rules_inv q : In q rules ->
  exists p r, In (p, r) MAPPINGS /\ q = (token p, codes r).
Proof.
  unfold rules. intro H. apply in_map_iff in H as [[p r] [E H]].
  exists p, r. split; [exact H | symmetry; exact E].
Qed.

Lemma re_search_table p r s : In (p, r) MAPPINGS ->
  re_search p s = Some (search (token p) s).
Proof.
  intro H. pose proof MAPPINGS_simple as Hs. rewrite Forall_forall in Hs.
  destruct (Hs _ H) as [Hc [_ Hw]]. simpl in Hc, Hw.
  unfold re_search. rewrite Hc. simpl. f_equal. apply search_from_lit. exact Hw.
Qed.

Lemma text_eqb_refl a : text_eqb a a = true.
Proof. induction a as [|c a IH]; simpl; [reflexivity|]. rewrite N.eqb_refl. exact IH. Qed.

Lemma text_eqb_eq a : forall b, text_eqb a b = true <-> a = b.
Proof.
  induction a as [|c a IH]; intros [|d b]; simpl; split; intro H;
    try reflexivity; try discriminate.
  - apply andb_true_iff in H as [E H]. apply N.eqb_eq in E.
    apply IH in H. congruence.
  - injection H as -> ->. rewrite N.eqb_refl. apply text_eqb_refl.
Qed.

Lemma transform_fixed s :
  (forall p r, In (p, r) MAPPINGS -> re_search p s = Some false) ->
  transform s = Some s.
Proof.
  intro H. rewrite transform_run. f_equal.
  apply (run_rules_fixed rules rules_wordy); [apply incl_refl|].
  intros q Hq. apply rules_inv in Hq as [p [r [Hin ->]]]. simpl.
  specialize (H p r Hin). rewrite (re_search_table p r s Hin) in H.
  congruence.
Qed.

(** ** Occurrences of [crate::] *)

Lemma pm_starts_with k : forall w s,
  starts_with k w = true -> pm w s = true -> starts_with k s = true.
Proof.
  induction k as [|c k IH]; intros w s Hk Hp; [reflexivity|].
  destruct w as [|d w]; [discriminate|]. simpl in Hk.
  apply andb_true_iff in Hk as [E Hk]. apply N.eqb_eq in E. subst d.
  destruct s as [|e s]; [discriminate|]. simpl in Hp.
  apply andb_true_iff in Hp as [E Hp]. simpl. rewrite E. simpl. eauto.
Qed.

Lemma search_contains k w : starts_with k w = true ->
  forall s, search w s = true -> contains k s = true.
Proof.
  intro Hk. induction s as [|c s IH]; simpl; intro H.
  - rewrite orb_false_r in *. eauto using pm_starts_with.
  - apply orb_true_iff in H as [H|H].
    + rewrite (pm_starts_with k w _ Hk H). reflexivity.
    + rewrite (IH H). apply orb_true_r.
Qed.

Lemma rules_crate :
  forallb (fun wr => starts_with (codes "crate::") (fst wr)) rules = true.
Proof. vm_compute. reflexivity. Qed.

(** ** Spans kept and spans replaced *)

Lemma ssub_Rewrite w r : wordy w = true ->
  forall s prev, Rewrite (lit_re w) r prev s (ssub w r s).
Proof.
  intros Hw s. pattern s. apply (scan_ind w Hw); clear s.
  - intro prev. rewrite (ssub_nil w r Hw). constructor.
  - intros s Hs IH prev. rewrite (ssub_hit w r Hw s Hs).
    rewrite (pm_split w s Hs) at 1.
    apply (Rewrite_hit (lit_re w) r prev w (skipn (length w) s) (last_opt w prev)).
    + rewrite <- (pm_split w s Hs).
      rewrite match_here_lit by apply (w_last w Hw). rewrite Hs. reflexivity.
    + apply IH.
  - intros c s Hs IH prev. rewrite (ssub_miss w r Hw c s Hs).
    constructor. apply IH.
Qed.

Lemma run_rules_Frames items : Forall simple_item items ->
  forall s, Frames items s (run_rules (map (fun '(p, r) => (token p, codes r)) items) s).
Proof.
  induction 1 as [|[p r] items [Hc [_ Hw]] _ IH]; intro s; simpl; [constructor|].
  simpl in Hc, Hw.
  eapply Frames_cons; [exact Hc | apply ssub_Rewrite; exact Hw | apply IH].
Qed.

(** ** Properties of the per-file transform *)

(** C1. The per-file transform is idempotent: applying the whole table to
    the transformed content gives the transformed content again, and no
    pattern of the table matches anywhere in transformed content, so no
    pattern matches text brought in by a replacement. *)
Theorem transform_idempotent (F : text) :
  exists F', transform F = Some F'
    /\ transform F' = Some F'
    /\ forall p r, In (p, r) MAPPINGS -> re_search p F' = Some false.
Proof.
  exists (run_rules rules F). split; [apply transform_run|].
  assert (H : forall p r, In (p, r) MAPPINGS ->
                re_search p (run_rules rules F) = Some false).
  { intros p r Hin. rewrite (re_search_table p r _ Hin). f_equal.
    exact (run_rules_no_match rules rules_wordy rules_stable F
             (token p, codes r) (in_rules p r Hin)). }
  split; [|exact H]. apply transform_fixed. exact H.
Qed.

(** C7. No-op preservation: when no pattern of the table matches anywhere
    in a file's content, the transform returns the content as it is, and
    processing the file returns without writing it and without printing
    anything: the world is the same afterwards. *)
Theorem no_match_no_change (content : text) :
  (forall p r, In (p, r) MAPPINGS -> re_search p content = Some false) ->
  transform content = Some content
  /\ forall path w wm, files w path = File content wm ->
       process_file path w = (Returned, w).
Proof.
  intro H. pose proof (transform_fixed content H) as Ht.
  split; [exact Ht|]. intros path w wm Hf.
  unfold process_file. rewrite Hf, Ht, text_eqb_refl. reflexivity.
Qed.

(** C10. Frame property of the substitution: the transformed content is
    reached from the original by one pass per table entry, each pass
    replacing matches of the entry's pattern and keeping every character
    outside them verbatim; and content without any occurrence of [crate::]
    is returned identical. *)
Theorem transform_frame (F : text) :
  exists F', transform F = Some F'
    /\ Frames MAPPINGS F F'
    /\ (contains (codes "crate::") F = false -> F' = F).
Proof.
  exists (run_rules rules F). split; [apply transform_run|]. split.
  - apply run_rules_Frames, MAPPINGS_simple.
  - intro Hc. apply (run_rules_fixed rules rules_wordy); [apply incl_refl|].
    intros q Hq. destruct (search (fst q) F) eqn:E; [|reflexivity].
    pose proof rules_crate as Hk. rewrite forallb_forall in Hk.
    rewrite (search_contains _ _ (Hk q Hq) F E) in Hc. discriminate.
Qed.

(** ** Properties of [process_file] *)

(** C5. Write if and only if changed, with notification: a readable file
    is always transformed.  When the transformed content is the original,
    processing returns and nothing has happened: no write, no line.  When
    it differs and the file can be written, processing returns, the file
    holds exactly the transformed content, exactly one line
    [Updated <path>] has been printed and no other file is touched. *)
Theorem write_iff_changed (path : string) (w : world) (original : text)
  (wm : write_mode) :
  files w path = File original wm ->
  exists transformed,
    transform original = Some transformed
    /\ (transformed = original -> process_file path w = (Returned, w))
    /\ (transformed <> original -> wm = WriteOk ->
        exists w', process_file path w = (Returned, w')
          /\ files w' path = File transformed wm
          /\ console w' = console w ++ [("Updated " ++ path)%string]
          /\ forall q, q <> path -> files w' q = files w q).
Proof.
  intro Hf. exists (run_rules rules original).
  pose proof (transform_run original) as Ht.
  split; [exact Ht|]. unfold process_file. rewrite Hf, Ht. split.
  - intros ->. rewrite text_eqb_refl. reflexivity.
  - intros Hne ->.
    destruct (text_eqb (run_rules rules original) original) eqn:E.
    + apply text_eqb_eq in E. contradiction.
    + eexists. split; [reflexivity|]. simpl. split; [|split; [reflexivity|]].
      * unfold set_file. rewrite String.eqb_refl. reflexivity.
      * intros q Hq. unfold set_file.
        apply String.eqb_neq in Hq. rewrite Hq. reflexivity.
Qed.

(** C9. Determinism: what processing a file does is a function of the
    file's entry alone.  In two worlds that agree on the file, the result,
    the file's new state and the lines printed are the same. *)
Theorem process_file_deterministic (path : string) (w1 w2 : world) :
  files w1 path = files w2 path ->
  fst (process_file path w1) = fst (process_file path w2)
  /\ files (snd (process_file path w1)) path
     = files (snd (process_file path w2)) path
  /\ exists out,
       console (snd (process_file path w1)) = console w1 ++ out
       /\ console (snd (process_file path w2)) = console w2 ++ out.
Proof.
  intro H. unfold process_file. rewrite <- H.
  assert (Hsame : forall r : result, fst (r, w1) = fst (r, w2)
            /\ files (snd (r, w1)) path = files (snd (r, w2)) path
            /\ exists out, console (snd (r, w1)) = console w1 ++ out
                 /\ console (snd (r, w2)) = console w2 ++ out).
  { intro r. split; [reflexivity|]. split; [exact H|].
    exists []. rewrite !app_nil_r. split; reflexivity. }
  destruct (files w1 path) as [content wm|e]; [|apply Hsame].
  destruct (transform content) as [content'|]; [|apply Hsame].
  destruct (text_eqb content' content); [apply Hsame|].
  destruct wm; [| apply Hsame |]; simpl.
  - split; [reflexivity|]. split.
    + unfold set_file. rewrite String.eqb_refl. reflexivity.
    + eexists. split; reflexivity.
  - split; [reflexivity|]. split.
    + unfold set_file. rewrite String.eqb_refl. reflexivity.
    + exists []. rewrite !app_nil_r. split; reflexivity.
Qed.

Fixpoint tree_ind' (P : tree -> Prop)
  (H : forall name fnames subdirs, Forall P subdirs -> P (Dir name fnames subdirs))
  (t : tree) : P t :=
  match t with
  | Dir name fnames subdirs =>
      H name fnames subdirs
        ((fix go (ds : list tree) : Forall P ds :=
            match ds with
            | [] => Forall_nil P
            | d :: ds' => Forall_cons d (tree_ind' P H d) (go ds')
            end) subdirs)
  end.

(** ** The walk as a sequence of calls *)

Lemma process_all_app a : forall b w,
  process_all (a ++ b) w =
    match process_all a w with
    | (Returned, w') => process_all b w'
    | (Raised e, w') => (Raised e, w')
    end.
Proof.
  induction a as [|p a IH]; intros b w; simpl; [reflexivity|].
  destruct (process_file p w) as [[|e] w']; [apply IH | reflexivity].
Qed.

Lemma for_files_calls root : forall fnames w,
  for_files root fnames w = process_all (calls_in root fnames) w.
Proof.
  unfold calls_in. induction fnames as [|f fnames IH]; intro w; simpl; [reflexivity|].
  unfold wanted at 1. destruct (endswith f ".rs"); simpl; [|apply IH].
  destruct (String.eqb f "lib.rs" && String.eqb root src_dir); simpl; [apply IH|].
  destruct (process_file (path_join root f) w) as [[|e] w']; [apply IH | reflexivity].
Qed.

Lemma for_walk_calls : forall triples w,
  for_walk triples w = process_all (calls triples) w.
Proof.
  induction triples as [|[[root ds] fnames] triples IH]; intro w; simpl; [reflexivity|].
  rewrite process_all_app, for_files_calls.
  destruct (process_all (calls_in root fnames) w) as [[|e] w']; [apply IH | reflexivity].
Qed.

Lemma calls_app a b : calls (a ++ b) = calls a ++ calls b.
Proof.
  induction a as [|[[root ds] fnames] a IH]; simpl; [reflexivity|].
  rewrite IH, app_assoc. reflexivity.
Qed.

Lemma filter_map_comm {A B} (f : A -> B) (P : B -> bool) (l : list A) :
  filter P (map f l) = map f (filter (fun x => P (f x)) l).
Proof.
  induction l as [|x l IH]; simpl; [reflexivity|].
  destruct (P (f x)); simpl; rewrite IH; reflexivity.
Qed.

(** The calls of a walk, in terms of the entries of the tree. *)
Lemma walk_calls : forall t top,
  calls (walk top t) =
    map (entry_path top)
        (filter (fun e => wanted (dir_path top (fst e)) (snd e)) (entries t)).
Proof.
  induction t as [name fnames subdirs IH] using tree_ind'. intro top.
  simpl. rewrite filter_app, map_app. f_equal.
  - unfold calls_in. rewrite filter_map_comm, map_map. reflexivity.
  - induction IH as [|d ds Hd _ IHds]; [reflexivity|].
    rewrite calls_app, filter_app, map_app, IHds, Hd.
    f_equal. rewrite filter_map_comm, map_map. reflexivity.
Qed.

Lemma entries_in_tree : forall t chain f,
  In (chain, f) (entries t) <-> in_tree t chain f.
Proof.
  induction t as [name fnames subdirs IH] using tree_ind'. intros chain f.
  simpl. rewrite in_app_iff. split.
  - intros [H|H].
    + apply in_map_iff in H as [f' [E H]]. injection E as <- <-.
      constructor. exact H.
    + induction IH as [|d ds Hd _ IHds]; [destruct H|].
      apply in_app_or in H as [H|H].
      * apply in_map_iff in H as [[ch f'] [E H]]. simpl in E. injection E as <- <-.
        apply in_below; [left; reflexivity | apply Hd; exact H].
      * specialize (IHds H). inversion IHds; subst.
        -- apply in_here. assumption.
        -- apply in_below; [right; assumption | assumption].
  - intro H. inversion H as [? ? ? ? Hf | ? ? ? d ch ? Hd Hin]; subst.
    + left. exact (in_map (pair []) fnames f Hf).
    + right. clear H. induction IH as [|d' ds Hd' _ IHds]; [destruct Hd|].
      apply in_or_app. destruct Hd as [->|Hd].
      * left. apply Hd' in Hin.
        exact (in_map (fun e => (dir_name d :: fst e, snd e)) _ (ch, f) Hin).
      * right. apply IHds. exact Hd.
Qed.

Lemma string_length_app (a b : string) :
  String.length (a ++ b) = String.length a + String.length b.
Proof. induction a as [|c a IH]; simpl; [reflexivity | rewrite IH; reflexivity]. Qed.

Lemma dir_path_length : forall chain top,
  String.length top + List.length chain <= String.length (dir_path top chain).
Proof.
  unfold dir_path. induction chain as [|d chain IH]; intro top; simpl; [lia|].
  specialize (IH (path_join top d)). unfold path_join in IH at 1.
  rewrite string_length_app in IH. simpl in IH. lia.
Qed.

(** Only the top of the walk has [root == src_dir]. *)
Lemma root_is_src_dir chain :
  String.eqb (dir_path src_dir chain) src_dir = is_nil chain.
Proof.
  destruct chain as [|d chain]; [apply String.eqb_refl|].
  apply String.eqb_neq. intro E.
  pose proof (dir_path_length (d :: chain) src_dir) as H.
  rewrite E in H. simpl in H. lia.
Qed.

Lemma wanted_keep e : wanted (dir_path src_dir (fst e)) (snd e) = keep e.
Proof.
  unfold wanted, keep. rewrite root_is_src_dir.
  rewrite (andb_comm (String.eqb (snd e) "lib.rs")). reflexivity.
Qed.

Lemma keep_spec chain f :
  keep (chain, f) = true <->
  endswith f ".rs" = true /\ ~ (chain = [] /\ f = "lib.rs"%string).
Proof.
  unfold keep. simpl. rewrite andb_true_iff, negb_true_iff. split.
  - intros [He Hn]. split; [exact He|]. intros [-> ->]. discriminate.
  - intros [He Hn]. split; [exact He|].
    destruct chain; simpl; [|reflexivity].
    apply String.eqb_neq. intro E. apply Hn. auto.
Qed.

Lemma main_calls t w :
  main t w = process_all (map (entry_path src_dir) (filter keep (entries t))) w.
Proof.
  unfold main. rewrite for_walk_calls, walk_calls. do 2 f_equal.
  apply filter_ext. intro e. apply wanted_keep.
Qed.

(** ** Failures *)

Lemma process_file_frame p w q : q <> p ->
  files (snd (process_file p w)) q = files w q.
Proof.
  intro Hq. unfold process_file.
  destruct (files w p) as [content wm|e]; [|reflexivity].
  destruct (transform content) as [content'|]; [|reflexivity].
  destruct (text_eqb content' content); [reflexivity|].
  apply String.eqb_neq in Hq.
  destruct wm; simpl; unfold set_file; try rewrite Hq; reflexivity.
Qed.

Lemma process_all_frame q : forall ps w, ~ In q ps ->
  files (snd (process_all ps w)) q = files w q.
Proof.
  induction ps as [|p ps IH]; intros w Hq; simpl; [reflexivity|].
  assert (Hp : q <> p) by (intro E; apply Hq; left; auto).
  pose proof (process_file_frame p w q Hp) as Hf.
  destruct (process_file p w) as [[|e] w']; simpl in Hf |- *.
  - rewrite IH; [exact Hf|]. intro H. apply Hq. right. exact H.
  - exact Hf.
Qed.

Lemma process_file_raised_console p w e w' :
  process_file p w = (Raised e, w') -> console w' = console w.
Proof.
  unfold process_file.
  destruct (files w p) as [content wm|e0]; [|intro H; injection H as _ <-; reflexivity].
  destruct (transform content) as [content'|]; [|intro H; injection H as _ <-; reflexivity].
  destruct (text_eqb content' content); [discriminate|].
  destruct wm; intro H; try discriminate; injection H as _ <-; reflexivity.
Qed.

(** ** Properties of the walk *)

(** C6. Walk filtering and root-only exclusion: [main] calls
    [process_file] on exactly the files of the tree whose name ends with
    [.rs], except [lib.rs] directly in the root directory; [lib.rs] in a
    subdirectory is processed. *)
Theorem walk_selects (t : tree) (w : world) :
  main t w = process_all (map (entry_path src_dir) (filter keep (entries t))) w
  /\ forall chain f,
       In (chain, f) (filter keep (entries t)) <->
       in_tree t chain f
       /\ endswith f ".rs" = true
       /\ ~ (chain = [] /\ f = "lib.rs"%string).
Proof.
  split; [apply main_calls|]. intros chain f.
  rewrite filter_In, entries_in_tree, keep_spec. reflexivity.
Qed.

Lemma io_failure_raises p w e : io_failure p w e ->
  exists w', process_file p w = (Raised e, w').
Proof.
  intro H. unfold process_file.
  destruct H as [e Hf | c c' Hf Ht Hne | c c' kept Hf Ht Hne]; rewrite Hf.
  - eauto.
  - rewrite Ht. destruct (text_eqb c' c) eqn:E; [|eauto].
    apply text_eqb_eq in E. contradiction.
  - rewrite Ht. destruct (text_eqb c' c) eqn:E; [|eauto].
    apply text_eqb_eq in E. contradiction.
Qed.

(** C8. Error propagation and partial-run state: a failure to read or to
    write the file of some call of the walk is not caught: [main] ends at
    once with that exception.  The files processed before keep what their
    processing left, the console gains nothing, and every file not yet
    reached is as it was at the start. *)
Theorem failure_aborts_walk (t : tree) (pre post : list string) (p : string)
  (w w1 : world) (e : exn) :
  calls (walk src_dir t) = pre ++ p :: post ->
  process_all pre w = (Returned, w1) ->
  io_failure p w1 e ->
  exists w2,
    main t w = (Raised e, w2)
    /\ console w2 = console w1
    /\ (forall q, q <> p -> files w2 q = files w1 q)
    /\ (forall q, ~ In q pre -> q <> p -> files w2 q = files w q).
Proof.
  intros Hc Hpre Hio. destruct (io_failure_raises p w1 e Hio) as [w2 Hp].
  exists w2. split; [|split; [|split]].
  - unfold main. rewrite for_walk_calls, Hc, process_all_app, Hpre.
    simpl. rewrite Hp. reflexivity.
  - eapply process_file_raised_console. exact Hp.
  - intros q Hq. pose proof (process_file_frame p w1 q Hq) as H.
    rewrite Hp in H. exact H.
  - intros q Hin Hq. pose proof (process_file_frame p w1 q Hq) as H.
    rewrite Hp in H. simpl in H. rewrite H.
    pose proof (process_all_frame q pre w Hin) as H'.
    rewrite Hpre in H'. exact H'.
Qed.

(** ** Lines

    A character that is not a word character and occurs in no token cuts
    the scan in two independent halves; the newline is one. *)

Lemma pm_sep d w : existsb (N.eqb d) w = false -> is_word d = false ->
  forall x y, pm w (x ++ d :: y) = pm w x.
Proof.
  intros Hd Hw. induction w as [|c w IH]; intros x y.
  - destruct x; simpl; [rewrite Hw|]; reflexivity.
  - simpl in Hd. apply orb_false_iff in Hd as [Hc Hd].
    destruct x as [|e x]; simpl.
    + rewrite N.eqb_sym, Hc. reflexivity.
    + rewrite (IH Hd). reflexivity.
Qed.

Lemma ssub_sep d w r : wordy w = true ->
  existsb (N.eqb d) w = false -> is_word d = false ->
  forall x y, ssub w r (x ++ d :: y) = ssub w r x ++ d :: ssub w r y.
Proof.
  intros Hw Hd Hnw x y. pattern x. apply (scan_ind w Hw); clear x.
  - simpl. rewrite (ssub_nil w r Hw). simpl. apply (ssub_miss w r Hw).
    rewrite <- (pm_nil w Hw). apply (pm_sep d w Hd Hnw []).
  - intros x Hx IH. rewrite (ssub_hit w r Hw x Hx).
    rewrite (ssub_hit w r Hw (x ++ d :: y)) by (rewrite pm_sep; assumption).
    rewrite skipn_app. pose proof (pm_length _ _ Hx) as Hl.
    replace (length w - length x) with 0 by lia. simpl skipn at 2.
    rewrite IH, app_assoc. reflexivity.
  - intros c x Hx IH. rewrite (ssub_miss w r Hw c x Hx). simpl.
    rewrite (ssub_miss w r Hw c (x ++ d :: y))
      by (change (c :: x ++ d :: y) with ((c :: x) ++ d :: y);
          rewrite pm_sep; assumption).
    rewrite IH. reflexivity.
Qed.

Lemma run_rules_sep d : is_word d = false ->
  forall rs,
    Forall (fun wr => wordy (fst wr) = true /\ existsb (N.eqb d) (fst wr) = false) rs ->
    forall x y, run_rules rs (x ++ d :: y) = run_rules rs x ++ d :: run_rules rs y.
Proof.
  intros Hd rs H. induction H as [|[w r] rs [Hw Hn] _ IH]; intros x y; [reflexivity|].
  simpl in Hw, Hn |- *. rewrite (ssub_sep d w r Hw Hn Hd). apply IH.
Qed.

Lemma rules_no_newline :
  Forall (fun wr => wordy (fst wr) = true /\ existsb (N.eqb 10) (fst wr) = false) rules.
Proof. repeat constructor. Qed.

Lemma run_rules_nil rs : Forall (fun wr => wordy (fst wr) = true) rs ->
  run_rules rs [] = [].
Proof.
  induction 1 as [|[w r] rs Hw _ IH]; [reflexivity|].
  simpl. rewrite (ssub_nil w r Hw). exact IH.
Qed.

(** The transform works line by line. *)
Lemma run_rules_lines : forall ls,
  run_rules rules (join_lines ls) = join_lines (map (run_rules rules) ls).
Proof.
  induction ls as [|l ls IH]; [apply run_rules_nil, rules_wordy|].
  destruct ls as [|l' ls]; [reflexivity|].
  change (join_lines (l :: l' :: ls)) with (l ++ 10%N :: join_lines (l' :: ls)).
  rewrite (run_rules_sep 10%N eq_refl rules rules_no_newline), IH. reflexivity.
Qed.

(** C4. The scenario: in any file, a line [use crate::app::Foo;] becomes
    [use crate::core::app::Foo;] and a line [use crate::appendix::Bar;]
    stays as it is, the other lines being transformed on their own; a file
    that is just the second line is unchanged. *)
Theorem scenario_lines (before after : list text) :
  exists before' after',
    Forall2 (fun l l' => transform l = Some l') before before'
    /\ Forall2 (fun l l' => transform l = Some l') after after'
    /\ transform (join_lines (before ++ codes "use crate::app::Foo;" :: after))
       = Some (join_lines (before' ++ codes "use crate::core::app::Foo;" :: after'))
    /\ transform (join_lines (before ++ codes "use crate::appendix::Bar;" :: after))
       = Some (join_lines (before' ++ codes "use crate::appendix::Bar;" :: after'))
    /\ transform (codes "use crate::appendix::Bar;")
       = Some (codes "use crate::appendix::Bar;").
Proof.
  exists (map (run_rules rules) before), (map (run_rules rules) after).
  assert (HF : forall ls, Forall2 (fun l l' => transform l = Some l') ls
                            (map (run_rules rules) ls)).
  { induction ls; constructor; [apply transform_run | assumption]. }
  split; [apply HF|]. split; [apply HF|].
  rewrite !transform_run, !run_rules_lines, !map_app. simpl map.
  repeat split.
Qed.

(** ** Tokens followed by a word character *)

Lemma clashw_sound w : forall t c b,
  clashw w t = true -> is_word c = true -> pm w (t ++ c :: b) = false.
Proof.
  induction w as [|x w IH]; intros [|d t] c b H Hc; simpl in *; try discriminate.
  - rewrite Hc. reflexivity.
  - rewrite H. reflexivity.
  - apply orb_true_iff in H as [H|H].
    + apply negb_true_iff in H. rewrite H. reflexivity.
    + rewrite (IH _ _ _ H Hc). apply andb_false_r.
Qed.

Lemma all_suffix_clashw_head w t : all_suffix_clashw w t = true -> clashw w t = true.
Proof.
  destruct w; unfold all_suffix_clashw; fold all_suffix_clashw; intro H;
    apply andb_true_iff in H as [H _]; exact H.
Qed.

Lemma all_suffix_clashw_tail c w t :
  all_suffix_clashw (c :: w) t = true -> all_suffix_clashw w t = true.
Proof.
  unfold all_suffix_clashw at 1; fold all_suffix_clashw. intro H.
  apply andb_true_iff in H as [_ H]. exact H.
Qed.

Lemma pm_in_length w : forall a, pm_in w a = true -> length w <= length a.
Proof.
  induction w as [|c w IH]; intros a H; simpl in *; [lia|].
  destruct a as [|d a]; [discriminate|].
  apply andb_true_iff in H as [_ H]. apply IH in H. simpl. lia.
Qed.

Section Guarded.

Variables wp wq rq : text.
Hypothesis wq_wordy : wordy wq = true.
Hypothesis wq_guards : guards wp (wq, rq) = true.

Lemma guards_tails t : In t (tails wp) -> clashw wq t = true.
Proof.
  unfold guards in wq_guards. simpl in wq_guards.
  apply andb_true_iff in wq_guards as [H _].
  apply andb_true_iff in H as [H _].
  rewrite forallb_forall in H. apply H.
Qed.

Lemma guards_suffix : all_suffix_clashw wq wp = true.
Proof.
  unfold guards in wq_guards. simpl in wq_guards.
  apply andb_true_iff in wq_guards as [H _].
  apply andb_true_iff in H as [_ H]. exact H.
Qed.

Lemma guards_head : exists c w' r', wq = c :: w' /\ rq = c :: r'.
Proof.
  unfold guards in wq_guards. simpl in wq_guards.
  apply andb_true_iff in wq_guards as [_ H].
  destruct wq as [|c w']; [discriminate|]. destruct rq as [|d r']; [discriminate|].
  apply N.eqb_eq in H. subst d. eauto.
Qed.

(** The scan walks over the occurrence without a match. *)
Lemma ssub_over : forall t c b, incl (tails t) (tails wp) -> is_word c = true ->
  ssub wq rq (t ++ c :: b) = t ++ ssub wq rq (c :: b).
Proof.
  induction t as [|d t IH]; intros c b Hin Hc; [reflexivity|].
  simpl. rewrite (ssub_miss wq rq wq_wordy).
  - f_equal. apply IH; [|exact Hc]. intros x Hx. apply Hin. right. exact Hx.
  - apply (clashw_sound wq (d :: t) c b); [|exact Hc].
    apply guards_tails, Hin. left. reflexivity.
Qed.

(** The first character after the occurrence stays. *)
Lemma ssub_head c b : exists b', ssub wq rq (c :: b) = c :: b'.
Proof.
  destruct (pm wq (c :: b)) eqn:E.
  - rewrite (ssub_hit wq rq wq_wordy _ E).
    destruct guards_head as [x [w' [r' [Hq Hr]]]].
    rewrite Hq in E. simpl in E. apply andb_true_iff in E as [E _].
    apply N.eqb_eq in E. subst x. rewrite Hr. simpl. eauto.
  - rewrite (ssub_miss wq rq wq_wordy _ _ E). eauto.
Qed.

(** Before the occurrence, whether [wq] matches is decided by the text
    before the occurrence alone. *)
Lemma pm_before c b : is_word c = true ->
  forall w a, all_suffix_clashw w wp = true ->
    pm w (a ++ wp ++ c :: b) = pm_in w a.
Proof.
  intros Hc. induction w as [|x w IH]; intros a Hw.
  - destruct a as [|d a]; [|reflexivity].
    apply (clashw_sound [] wp c b); [|exact Hc].
    apply all_suffix_clashw_head. exact Hw.
  - destruct a as [|d a].
    + apply (clashw_sound (x :: w) wp c b); [|exact Hc].
      apply all_suffix_clashw_head. exact Hw.
    + simpl. rewrite IH; [reflexivity|].
      apply all_suffix_clashw_tail in Hw. exact Hw.
Qed.

Lemma ssub_before : forall n a, length a <= n ->
  exists a', forall c b, is_word c = true ->
    ssub wq rq (a ++ wp ++ c :: b) = a' ++ ssub wq rq (wp ++ c :: b).
Proof.
  induction n as [|n IH]; intros a Hn.
  - destruct a; [|simpl in Hn; lia]. exists []. reflexivity.
  - destruct (pm_in wq a) eqn:E.
    + pose proof (pm_in_length _ _ E) as Hl. pose proof (w_length wq wq_wordy) as H0.
      destruct (IH (skipn (length wq) a)) as [a' Ha'].
      { rewrite length_skipn. lia. }
      exists (rq ++ a'). intros c b Hc.
      rewrite (ssub_hit wq rq wq_wordy)
        by (rewrite (pm_before c b Hc); [exact E | apply guards_suffix]).
      rewrite skipn_app. replace (length wq - length a) with 0 by lia.
      simpl skipn at 2. rewrite (Ha' c b Hc), app_assoc. reflexivity.
    + destruct a as [|d a]; [exists []; reflexivity|].
      destruct (IH a) as [a' Ha']; [simpl in Hn; lia|].
      exists (d :: a'). intros c b Hc. simpl.
      rewrite (ssub_miss wq rq wq_wordy).
      * rewrite (Ha' c b Hc). reflexivity.
      * change (d :: a ++ wp ++ c :: b) with ((d :: a) ++ wp ++ c :: b).
        rewrite (pm_before c b Hc); [exact E | apply guards_suffix].
Qed.

Lemma ssub_guarded a :
  exists a', forall c b, is_word c = true ->
    exists b', ssub wq rq (a ++ wp ++ c :: b) = a' ++ wp ++ c :: b'
               /\ ssub wq rq (c :: b) = c :: b'.
Proof.
  destruct (ssub_before (length a) a (le_n _)) as [a' Ha'].
  exists a'. intros c b Hc. destruct (ssub_head c b) as [b' Hb'].
  exists b'. split; [|exact Hb'].
  rewrite (Ha' c b Hc), (ssub_over wp c b (incl_refl _) Hc), Hb'. reflexivity.
Qed.

End Guarded.

Lemma run_rules_guarded wp : forall rs,
  Forall (fun q => wordy (fst q) = true /\ guards wp q = true) rs ->
  forall a, exists a', forall c b, is_word c = true ->
    exists b', run_rules rs (a ++ wp ++ c :: b) = a' ++ wp ++ c :: b'
               /\ run_rules rs (c :: b) = c :: b'.
Proof.
  induction 1 as [|[wq rq] rs [Hw Hg] _ IH]; intro a.
  - exists a. intros c b _. exists b. split; reflexivity.
  - simpl in Hw. destruct (ssub_guarded wp wq rq Hw Hg a) as [a1 H1].
    destruct (IH a1) as [a2 H2]. exists a2. intros c b Hc.
    destruct (H1 c b Hc) as [b1 [E1 E1']]. destruct (H2 c b1 Hc) as [b2 [E2 E2']].
    exists b2. simpl. rewrite E1, E1'. split; assumption.
Qed.

Lemma rules_guard :
  forallb (fun p => forallb (fun q => wordy (fst q) && guards (fst p) q) rules)
          rules = true.
Proof. vm_compute. reflexivity. Qed.

(** C3. Word-boundary correctness: an occurrence of a mapped search token
    that is immediately followed by a word character is not rewritten.  The
    transform of a text around such an occurrence is the transform of what
    comes before it, the occurrence itself with the character after it,
    and the transform of what follows, which keeps that character. *)
Theorem token_with_suffix_kept (p r : string) (a : text) :
  In (p, r) MAPPINGS ->
  exists a', forall c b, is_word c = true ->
    exists b',
      transform (a ++ token p ++ c :: b) = Some (a' ++ token p ++ c :: b')
      /\ transform (c :: b) = Some (c :: b').
Proof.
  intro Hin. pose proof rules_guard as Hg. rewrite forallb_forall in Hg.
  specialize (Hg _ (in_rules p r Hin)). cbv beta in Hg.
  rewrite forallb_forall in Hg.
  destruct (run_rules_guarded (token p) rules) with (a := a) as [a' Ha'].
  { apply Forall_forall. intros q Hq. specialize (Hg q Hq).
    apply andb_true_iff in Hg. exact Hg. }
  exists a'. intros c b Hc. destruct (Ha' c b Hc) as [b' [E1 E2]].
  exists b'. rewrite !transform_run, E1, E2. split; reflexivity.
Qed.

(** ** Global substitution *)

Lemma no_match_in_head re prev c u z :
  no_match_in re prev (c :: u) z -> match_here re prev (c :: u ++ z) = None.
Proof. intro H. apply (H [] (c :: u)); [reflexivity | discriminate]. Qed.

Lemma no_match_in_tail re prev c u z :
  no_match_in re prev (c :: u) z -> no_match_in re (Some c) u z.
Proof.
  intros H u1 u2 E Hne. apply (H (c :: u1) u2); [|exact Hne].
  rewrite E. reflexivity.
Qed.

Lemma no_match_in_cons re prev c u z :
  match_here re prev (c :: u ++ z) = None ->
  no_match_in re (Some c) u z -> no_match_in re prev (c :: u) z.
Proof.
  intros Hh Ht [|d u1] u2 E Hne.
  - simpl in E. subst u2. exact Hh.
  - injection E as <- E. apply (Ht u1 u2 E Hne).
Qed.

Lemma sub_from_no_match re repl : forall s prev,
  no_match_in re prev s [] -> match_here re (last_opt s prev) [] = None ->
  sub_from re repl prev s = s.
Proof.
  induction s as [|c s IH]; intros prev Hn He.
  - apply sub_from_nomatch_nil. exact He.
  - rewrite sub_from_nomatch_cons.
    + f_equal. apply IH; [|exact He]. eapply no_match_in_tail. exact Hn.
    + pose proof (no_match_in_head _ _ _ _ _ Hn) as H.
      rewrite app_nil_r in H. exact H.
Qed.

Lemma sub_from_skip re repl m rest prev' : m <> [] ->
  forall u prev,
    no_match_in re prev u (m ++ rest) ->
    match_here re (last_opt u prev) (m ++ rest) = Some (prev', rest) ->
    sub_from re repl prev (u ++ m ++ rest)
    = u ++ repl ++ sub_from re repl prev' rest.
Proof.
  intro Hm. induction u as [|c u IH]; intros prev Hn Hh.
  - apply sub_from_match; [exact Hh|].
    simpl. rewrite length_app. destruct m; [congruence | simpl; lia].
  - simpl. rewrite sub_from_nomatch_cons.
    + f_equal. apply IH; [eapply no_match_in_tail; exact Hn | exact Hh].
    + apply no_match_in_head. exact Hn.
Qed.

(** The relation determines the result of [re.sub]. *)
Lemma Subst_sub_from re repl prev s out :
  Subst re repl prev s out -> out = sub_from re repl prev s.
Proof.
  induction 1 as [prev s Hn He | prev u m rest prev' out Hn Hh Hm _ IH].
  - symmetry. apply sub_from_no_match; assumption.
  - rewrite (sub_from_skip re repl m rest prev' Hm u prev Hn Hh), IH. reflexivity.
Qed.

Lemma Subst_cons re repl prev c s out :
  match_here re prev (c :: s) = None ->
  Subst re repl (Some c) s out -> Subst re repl prev (c :: s) (c :: out).
Proof.
  intros Hh H. inversion H as [? ? Hn He | ? u m rest prev' out' Hn Hm Hne Hr]; subst.
  - apply Subst_end; [|exact He].
    apply no_match_in_cons; [rewrite app_nil_r; exact Hh | exact Hn].
  - apply (Subst_match re repl prev (c :: u) m rest prev' out'); try assumption.
    apply no_match_in_cons; assumption.
Qed.

(** [re.sub] on a table pattern is the global substitution. *)
Lemma ssub_Subst w r : wordy w = true ->
  forall s prev, Subst (lit_re w) r prev s (ssub w r s).
Proof.
  intros Hw s. pattern s. apply (scan_ind w Hw); clear s.
  - intro prev. rewrite (ssub_nil w r Hw). apply Subst_end.
    + intros u1 u2 E Hne. destruct u1; destruct u2; try discriminate. congruence.
    + simpl. rewrite match_here_lit by apply (w_last w Hw).
      rewrite (pm_nil w Hw). reflexivity.
  - intros s Hs IH prev. rewrite (ssub_hit w r Hw s Hs).
    rewrite (pm_split w s Hs) at 1.
    apply (Subst_match (lit_re w) r prev [] w (skipn (length w) s)
             (last_opt w prev)).
    + intros u1 u2 E Hne. destruct u1; destruct u2; try discriminate. congruence.
    + simpl. rewrite <- (pm_split w s Hs).
      rewrite match_here_lit by apply (w_last w Hw). rewrite Hs. reflexivity.
    + apply (w_nonempty w Hw).
    + apply IH.
  - intros c s Hs IH prev. rewrite (ssub_miss w r Hw c s Hs).
    apply Subst_cons; [|apply IH].
    rewrite match_here_lit by apply (w_last w Hw). rewrite Hs. reflexivity.
Qed.

Lemma Chain_apply_items items : forall s out,
  Chain items s out -> apply_items items s = Some out ->
  forall out', Chain items s out' -> out' = out.
Proof.
  intros s out _ Ha out' H. revert out Ha.
  induction H as [s | p r items re s s1 s2 Hc Hs _ IH]; intros out Ha; simpl in Ha.
  - congruence.
  - unfold re_sub in Ha. rewrite Hc in Ha.
    destruct (existsb (N.eqb 92) (codes r)); [discriminate|].
    apply Subst_sub_from in Hs. unfold sub in Ha. rewrite <- Hs in Ha.
    apply IH. exact Ha.
Qed.

Lemma run_rules_Chain items : Forall simple_item items ->
  forall s, Chain items s (run_rules (map (fun '(p, r) => (token p, codes r)) items) s).
Proof.
  induction 1 as [|[p r] items [Hc [_ Hw]] _ IH]; intro s; simpl; [constructor|].
  simpl in Hc, Hw. eapply Chain_cons; [exact Hc | apply ssub_Subst; exact Hw | apply IH].
Qed.

(** C2. The table is applied in declaration order, each pattern
    substituting every non-overlapping match in the content left by the
    pairs before it: the transform's result is the one text the chain of
    global substitutions over the table leads to. *)
Theorem transform_is_ordered_fold (F : text) :
  exists F', transform F = Some F'
    /\ Chain MAPPINGS F F'
    /\ forall F'', Chain MAPPINGS F F'' -> F'' = F'.
Proof.
  exists (run_rules rules F).
  assert (Hc : Chain MAPPINGS F (run_rules rules F))
    by apply run_rules_Chain, MAPPINGS_simple.
  split; [apply transform_run|]. split; [exact Hc|].
  intros F'' H. eapply Chain_apply_items; [exact Hc | apply transform_run | exact H].
Qed.

(** * Further properties *)

(** ** Growth

    Every replacement of the table is longer than its token, so a pass
    never shortens the content and lengthens it as soon as it replaces. *)

Lemma rules_grow :
  Forall (fun wr => wordy (fst wr) = true /\ length (fst wr) < length (snd wr)) rules.
Proof. repeat constructor. Qed.

Lemma ssub_length_ge w r : wordy w = true -> length w <= length r ->
  forall s, length s <= length (ssub w r s).
Proof.
  intros Hw Hl s. pattern s. apply (scan_ind w Hw); clear s.
  - rewrite (ssub_nil w r Hw). apply le_n.
  - intros s Hs IH. rewrite (ssub_hit w r Hw s Hs), length_app.
    rewrite length_skipn in IH. pose proof (pm_length _ _ Hs). lia.
  - intros c s Hs IH. rewrite (ssub_miss w r Hw c s Hs). simpl. lia.
Qed.

Lemma ssub_length_gt w r : wordy w = true -> length w < length r ->
  forall s, search w s = true -> length s < length (ssub w r s).
Proof.
  intros Hw Hl s. pattern s. apply (scan_ind w Hw); clear s.
  - simpl. rewrite (pm_nil w Hw). discriminate.
  - intros s Hs _ _. rewrite (ssub_hit w r Hw s Hs), length_app.
    pose proof (ssub_length_ge w r Hw (Nat.lt_le_incl _ _ Hl) (skipn (length w) s)) as H.
    rewrite length_skipn in H. pose proof (pm_length _ _ Hs). lia.
  - intros c s Hs IH H. simpl in H. rewrite Hs in H. simpl in H.
    rewrite (ssub_miss w r Hw c s Hs). simpl. apply IH in H. lia.
Qed.

Lemma run_rules_length_ge rs :
  Forall (fun wr => wordy (fst wr) = true /\ length (fst wr) < length (snd wr)) rs ->
  forall s, length s <= length (run_rules rs s).
Proof.
  induction 1 as [|[w r] rs [Hw Hl] _ IH]; intro s; [apply le_n|].
  simpl in Hw, Hl |- *.
  pose proof (ssub_length_ge w r Hw (Nat.lt_le_incl _ _ Hl) s).
  specialize (IH (ssub w r s)). lia.
Qed.

Lemma run_rules_length_gt rs :
  Forall (fun wr => wordy (fst wr) = true /\ length (fst wr) < length (snd wr)) rs ->
  forall s, existsb (fun wr => search (fst wr) s) rs = true ->
    length s < length (run_rules rs s).
Proof.
  induction 1 as [|[w r] rs [Hw Hl] Hrs IH]; intros s He; [discriminate|].
  simpl in Hw, Hl, He |- *. destruct (search w s) eqn:E.
  - pose proof (ssub_length_gt w r Hw Hl s E).
    pose proof (run_rules_length_ge rs Hrs (ssub w r s)). lia.
  - rewrite (ssub_no_match w r Hw s E). apply IH. exact He.
Qed.

Lemma existsb_rules_table s :
  existsb (fun wr => search (fst wr) s) rules = true <->
  exists p r, In (p, r) MAPPINGS /\ re_search p s = Some true.
Proof.
  rewrite existsb_exists. split.
  - intros [q [Hq Hs]]. apply rules_inv in Hq as [p [r [Hin ->]]].
    exists p, r. split; [exact Hin|].
    rewrite (re_search_table p r s Hin). f_equal. exact Hs.
  - intros [p [r [Hin Hs]]]. exists (token p, codes r).
    split; [apply in_rules; exact Hin|].
    rewrite (re_search_table p r s Hin) in Hs. simpl. congruence.
Qed.

(** X1. The transform changes a content exactly when some pattern of the
    table matches somewhere in it; it never shortens the content, and a
    changed content is strictly longer. *)
Theorem transform_changes_iff_match (F : text) :
  exists F', transform F = Some F'
    /\ length F <= length F'
    /\ ((exists p r, In (p, r) MAPPINGS /\ re_search p F = Some true) <-> F' <> F)
    /\ (F' <> F -> length F < length F').
Proof.
  exists (run_rules rules F). split; [apply transform_run|].
  split; [apply run_rules_length_ge, rules_grow|].
  assert (Hgt : existsb (fun wr => search (fst wr) F) rules = true ->
                length F < length (run_rules rules F))
    by apply run_rules_length_gt, rules_grow.
  assert (Hfix : existsb (fun wr => search (fst wr) F) rules = false ->
                 run_rules rules F = F).
  { intro He. apply (run_rules_fixed rules rules_wordy); [apply incl_refl|].
    intros q Hq. destruct (search (fst q) F) eqn:E; [|reflexivity].
    assert (existsb (fun wr => search (fst wr) F) rules = true)
      by (apply existsb_exists; eauto).
    congruence. }
  split; [split|].
  - intros H Heq. apply existsb_rules_table, Hgt in H. rewrite Heq in H. lia.
  - intro Hne. apply existsb_rules_table.
    destruct (existsb (fun wr => search (fst wr) F) rules); [reflexivity|].
    exfalso. apply Hne, Hfix. reflexivity.
  - intro Hne. apply Hgt.
    destruct (existsb (fun wr => search (fst wr) F) rules); [reflexivity|].
    exfalso. apply Hne, Hfix. reflexivity.
Qed.

(** ** Separators

    The tokens consist of word characters and colons, so any other
    character cuts the scan like the newline does. *)

Lemma rules_alphabet :
  Forall (fun wr => wordy (fst wr) = true
                    /\ forallb (fun c => is_word c || (c =? 58)%N) (fst wr) = true)
         rules.
Proof. repeat constructor. Qed.

Lemma not_in_token d w : is_word d = false -> d <> 58%N ->
  forallb (fun c => is_word c || (c =? 58)%N) w = true ->
  existsb (N.eqb d) w = false.
Proof.
  intros Hd H58. induction w as [|c w IH]; intro H; [reflexivity|].
  simpl in H |- *. apply andb_true_iff in H as [Hc H].
  rewrite (IH H), orb_false_r. apply N.eqb_neq. intros <-.
  rewrite Hd in Hc. simpl in Hc. apply N.eqb_eq in Hc. contradiction.
Qed.

(** X2. A character that is neither a word character nor a colon splits
    the transform: the text on either side of it is transformed on its
    own and the character stays where it is. *)
Theorem transform_splits_at_separator (d : N) (x y : text) :
  is_word d = false -> d <> 58%N ->
  exists x' y', transform x = Some x'
    /\ transform y = Some y'
    /\ transform (x ++ d :: y) = Some (x' ++ d :: y').
Proof.
  intros Hd H58. exists (run_rules rules x), (run_rules rules y).
  rewrite !transform_run. split; [reflexivity|]. split; [reflexivity|].
  f_equal. apply (run_rules_sep d Hd).
  eapply Forall_impl; [|exact rules_alphabet].
  intros [w r] [Hw Ha]. split; [exact Hw|]. apply not_in_token; assumption.
Qed.

(** ** Running twice *)

Lemma run_rules_twice s : run_rules rules (run_rules rules s) = run_rules rules s.
Proof.
  apply (run_rules_fixed rules rules_wordy); [apply incl_refl|].
  intros q Hq. apply (run_rules_no_match rules rules_wordy rules_stable). exact Hq.
Qed.

Lemma settled_returns p w : settled (files w p) = true ->
  process_file p w = (Returned, w).
Proof.
  unfold settled, process_file. destruct (files w p) as [c wm|e]; [|discriminate].
  intro H. rewrite transform_run, H. reflexivity.
Qed.

Lemma returned_settled p w w' : process_file p w = (Returned, w') ->
  settled (files w' p) = true.
Proof.
  unfold process_file. destruct (files w p) as [c wm|e] eqn:Hf; [|discriminate].
  rewrite transform_run.
  pose proof (run_rules_twice c) as Htw.
  remember (run_rules rules c) as c' eqn:Hc'.
  destruct (text_eqb c' c) eqn:E.
  - intro H. injection H as <-. rewrite Hf. unfold settled. rewrite <- Hc'. exact E.
  - destruct wm; try discriminate. intro H. injection H as <-. cbn [files].
    unfold set_file. rewrite String.eqb_refl. unfold settled.
    rewrite Htw. apply text_eqb_refl.
Qed.

(** X3. Processing a file a second time does nothing: after a call of
    [process_file] that returned, a further call on the same path returns
    with the world as it is, without a write and without a line. *)
Theorem process_file_again (p : string) (w w' : world) :
  process_file p w = (Returned, w') ->
  process_file p w' = (Returned, w').
Proof.
  intro H. apply settled_returns. eapply returned_settled. exact H.
Qed.

Lemma settled_kept q w w2 p : process_file q w = (Returned, w2) ->
  settled (files w p) = true -> settled (files w2 p) = true.
Proof.
  intros Hq Hp. destruct (String.eqb_spec p q) as [->|Hne].
  - rewrite (settled_returns q w Hp) in Hq. injection Hq as <-. exact Hp.
  - pose proof (process_file_frame q w p Hne) as H. rewrite Hq in H.
    simpl in H. rewrite H. exact Hp.
Qed.

Lemma process_all_settles : forall ps w w',
  process_all ps w = (Returned, w') ->
  (forall p, settled (files w p) = true -> settled (files w' p) = true)
  /\ forall p, In p ps -> settled (files w' p) = true.
Proof.
  induction ps as [|q ps IH]; intros w w' H; simpl in H.
  - injection H as <-. split; [auto | intros p []].
  - destruct (process_file q w) as [[|e] w1] eqn:Hq; [|discriminate].
    destruct (IH w1 w' H) as [Hkeep Hin]. split.
    + intros p Hp. apply Hkeep. eapply settled_kept; eassumption.
    + intros p [<-|Hp]; [|apply Hin; exact Hp].
      apply Hkeep. eapply returned_settled. exact Hq.
Qed.

Lemma process_all_settled : forall ps w,
  (forall p, In p ps -> settled (files w p) = true) ->
  process_all ps w = (Returned, w).
Proof.
  induction ps as [|q ps IH]; intros w H; simpl; [reflexivity|].
  rewrite (settled_returns q w) by (apply H; left; reflexivity).
  apply IH. intros p Hp. apply H. right. exact Hp.
Qed.

(** X4. Running the whole walk a second time does nothing: after a run of
    [main] that returned, a further run over the same tree returns with
    the world as it is. *)
Theorem main_again (t : tree) (w w' : world) :
  main t w = (Returned, w') ->
  main t w' = (Returned, w').
Proof.
  unfold main. rewrite !for_walk_calls. intro H.
  apply process_all_settled. apply (process_all_settles _ w w' H).
Qed.

(** ** A run without failures *)

Lemma process_file_ok p w c : files w p = File c WriteOk ->
  exists w1, process_file p w = (Returned, w1)
    /\ files w1 p = File (run_rules rules c) WriteOk
    /\ forall q, q <> p -> files w1 q = files w q.
Proof.
  intro Hf. unfold process_file. rewrite Hf, transform_run.
  remember (run_rules rules c) as c' eqn:Hc'.
  destruct (text_eqb c' c) eqn:E.
  - exists w. apply text_eqb_eq in E. split; [reflexivity|].
    split; [rewrite Hf, E; reflexivity | reflexivity].
  - eexists. split; [reflexivity|]. cbn [files]. unfold set_file. split.
    + rewrite String.eqb_refl. reflexivity.
    + intros q Hq. apply String.eqb_neq in Hq. rewrite Hq. reflexivity.
Qed.

Lemma process_all_ok : forall ps w,
  (forall p, In p ps -> exists c, files w p = File c WriteOk) ->
  exists w', process_all ps w = (Returned, w')
    /\ (forall p c, In p ps -> files w p = File c WriteOk ->
          files w' p = File (run_rules rules c) WriteOk)
    /\ (forall q, ~ In q ps -> files w' q = files w q).
Proof.
  induction ps as [|p ps IH]; intros w H.
  - exists w. split; [reflexivity|]. split; [intros p c []|reflexivity].
  - destruct (H p (or_introl eq_refl)) as [c Hc].
    destruct (process_file_ok p w c Hc) as [w1 [Hp [Hw1 Hframe]]].
    destruct (IH w1) as [w' [Hall [Hin Hout]]].
    { intros p' Hp'. destruct (String.eqb_spec p' p) as [->|Hne].
      - eauto.
      - rewrite (Hframe p' Hne). apply H. right. exact Hp'. }
    exists w'. simpl. rewrite Hp. split; [exact Hall|]. split.
    + intros p0 c0 Hp0 Hc0. destruct (in_dec string_dec p0 ps) as [Hi|Hni].
      * destruct (String.eqb_spec p0 p) as [->|Hne].
        -- rewrite Hc in Hc0. injection Hc0 as <-.
           rewrite (Hin p _ Hi Hw1), run_rules_twice. reflexivity.
        -- apply Hin; [exact Hi|]. rewrite (Hframe p0 Hne). exact Hc0.
      * destruct Hp0 as [<-|Hp0]; [|contradiction].
        rewrite (Hout p Hni), Hw1. rewrite Hc in Hc0. injection Hc0 as <-.
        reflexivity.
    + intros q Hq. rewrite Hout by (intro Hi; apply Hq; right; exact Hi).
      apply Hframe. intros ->. apply Hq. left. reflexivity.
Qed.

(** X5. A run without failures rewrites the tree: when every file [main]
    selects can be read and written, [main] returns, each selected file
    holds the transform of its original content, and every other file is
    untouched. *)
Theorem main_rewrites_selected (t : tree) (w : world) :
  (forall p, In p (calls (walk src_dir t)) -> exists c, files w p = File c WriteOk) ->
  exists w', main t w = (Returned, w')
    /\ (forall p c, In p (calls (walk src_dir t)) -> files w p = File c WriteOk ->
          exists c', transform c = Some c' /\ files w' p = File c' WriteOk)
    /\ (forall q, ~ In q (calls (walk src_dir t)) -> files w' q = files w q).
Proof.
  intro H. destruct (process_all_ok _ w H) as [w' [Hall [Hin Hout]]].
  exists w'. unfold main. rewrite for_walk_calls.
  split; [exact Hall|]. split; [|exact Hout].
  intros p c Hp Hc. exists (run_rules rules c).
  split; [apply transform_run | apply Hin; assumption].
Qed.

(** ** What the walk leaves alone *)

Lemma substring_skip a : forall n m f,
  substring (String.length a + n) m (a ++ f)%string = substring n m f.
Proof. induction a as [|c a IH]; intros n m f; simpl; [reflexivity | apply IH]. Qed.

Lemma endswith_app a f suffix :
  endswith f suffix = true -> endswith (a ++ f)%string suffix = true.
Proof.
  unfold endswith. intro H. apply andb_true_iff in H as [Hl He].
  apply Nat.leb_le in Hl. rewrite string_length_app.
  apply andb_true_iff. split; [apply Nat.leb_le; lia|].
  replace (String.length a + String.length f - String.length suffix)
    with (String.length a + (String.length f - String.length suffix)) by lia.
  rewrite substring_skip. exact He.
Qed.

Lemma endswith_join root f suffix :
  endswith f suffix = true -> endswith (path_join root f) suffix = true.
Proof.
  intro H. unfold path_join.
  apply endswith_app. apply (endswith_app (String os_sep EmptyString) f). exact H.
Qed.

Lemma calls_endswith : forall triples p,
  In p (calls triples) -> endswith p ".rs" = true.
Proof.
  induction triples as [|[[root ds] fnames] triples IH]; intros p H; [destruct H|].
  simpl in H. apply in_app_or in H as [H|H]; [|apply IH; exact H].
  unfold calls_in in H. apply in_map_iff in H as [f [<- Hf]].
  apply filter_In in Hf as [_ Hf]. unfold wanted in Hf.
  apply andb_true_iff in Hf as [Hf _]. apply endswith_join. exact Hf.
Qed.

Lemma main_frame t w q : ~ In q (calls (walk src_dir t)) ->
  files (snd (main t w)) q = files w q.
Proof.
  intro H. unfold main. rewrite for_walk_calls. apply process_all_frame. exact H.
Qed.

(** X6. The walk touches source files only: whatever [main] does, returning
    or raising, a file whose path does not end in [.rs] is as it was. *)
Theorem main_keeps_other_files (t : tree) (w : world) (q : string) :
  endswith q ".rs" = false ->
  files (snd (main t w)) q = files w q.
Proof.
  intro H. apply main_frame. intro Hin.
  apply calls_endswith in Hin. congruence.
Qed.

Lemma string_app_assoc (a b c : string) : ((a ++ b) ++ c = a ++ (b ++ c))%string.
Proof. induction a as [|x a IH]; simpl; [reflexivity | rewrite IH; reflexivity]. Qed.

Lemma string_app_inv_head (a b c : string) : (a ++ b = a ++ c)%string -> b = c.
Proof. induction a as [|x a IH]; simpl; intro H; [exact H|]. injection H as H. auto. Qed.

Lemma in_string_app x (a b : string) :
  In x (list_ascii_of_string (a ++ String x b)).
Proof. induction a as [|c a IH]; simpl; [left; reflexivity | right; exact IH]. Qed.

Lemma dir_path_prefix : forall chain top,
  exists x, dir_path top chain = (top ++ x)%string.
Proof.
  unfold dir_path. induction chain as [|d chain IH]; intro top; simpl.
  - exists EmptyString. induction top as [|c top IHt]; simpl; congruence.
  - destruct (IH (path_join top d)) as [x Hx]. rewrite Hx. unfold path_join.
    rewrite string_app_assoc. eauto.
Qed.

Lemma root_lib_rs_not_called t :
  ~ In os_sep (list_ascii_of_string "lib.rs") ->
  ~ In (path_join src_dir "lib.rs") (calls (walk src_dir t)).
Proof.
  intros Hsep Hin. rewrite walk_calls in Hin.
  apply in_map_iff in Hin as [[chain f] [E Hf]].
  apply filter_In in Hf as [_ Hf]. rewrite wanted_keep in Hf.
  unfold entry_path in E. simpl in E. destruct chain as [|d chain].
  - simpl in E. unfold path_join in E. apply string_app_inv_head in E.
    injection E as ->. discriminate.
  - change (dir_path src_dir (d :: chain))
      with (dir_path (path_join src_dir d) chain) in E.
    destruct (dir_path_prefix chain (path_join src_dir d)) as [x Hx].
    rewrite Hx in E. unfold path_join in E.
    rewrite !string_app_assoc in E. apply string_app_inv_head in E.
    simpl in E. injection E as E. apply Hsep. rewrite <- E.
    rewrite <- string_app_assoc. apply in_string_app.
Qed.

(** X7. The root [lib.rs] is never written: on a platform whose path
    separator is not a character of [lib.rs], the file [lib.rs] directly in
    the root directory is as it was after any run of [main], whatever the
    tree holds below. *)
Theorem main_keeps_root_lib_rs (t : tree) (w : world) :
  ~ In os_sep (list_ascii_of_string "lib.rs") ->
  files (snd (main t w)) (path_join src_dir "lib.rs")
  = files w (path_join src_dir "lib.rs").
Proof.
  intro Hsep. apply main_frame. apply root_lib_rs_not_called. exact Hsep.
Qed.

(** ** The console *)





(** ** One simultaneous pass *)

Lemma msub_hit rs s w r : hit_rule rs s = Some (w, r) ->
  0 < length w -> length w <= length s ->
  msub rs s = r ++ msub rs (skipn (length w) s).
Proof.
  intros H Hw Hs. destruct s as [|c s]; [simpl in Hs; lia|].
  rewrite (msub_equation_2 rs c s), H. simpl.
  destruct (lt_dec _ _) as [?|Hge]; [reflexivity|].
  exfalso. apply Hge. destruct w as [|x w]; [simpl in Hw; lia|].
  simpl. rewrite length_skipn. simpl in Hs. lia.
Qed.

Lemma msub_miss rs c s : hit_rule rs (c :: s) = None ->
  msub rs (c :: s) = c :: msub rs s.
Proof. intro H. rewrite (msub_equation_2 rs c s), H. reflexivity. Qed.

Lemma hit_rule_some rs s w r : hit_rule rs s = Some (w, r) ->
  In (w, r) rs /\ pm w s = true.
Proof. intro H. apply find_some in H. exact H. Qed.

Lemma hit_rule_none rs s : hit_rule rs s = None ->
  forall q, In q rs -> pm (fst q) s = false.
Proof. intros H q Hq. exact (find_none _ _ H q Hq). Qed.

Lemma hit_rule_ext rs s s' :
  (forall q, In q rs -> pm (fst q) s = pm (fst q) s') ->
  hit_rule rs s = hit_rule rs s'.
Proof.
  unfold hit_rule. induction rs as [|q rs IH]; intro H; [reflexivity|].
  simpl. rewrite (H q (or_introl eq_refl)).
  destruct (pm (fst q) s'); [reflexivity|].
  apply IH. intros x Hx. apply H. right. exact Hx.
Qed.

Lemma hit_rule_all_false rs s :
  (forall q, In q rs -> pm (fst q) s = false) -> hit_rule rs s = None.
Proof.
  unfold hit_rule. induction rs as [|q rs IH]; intro H; [reflexivity|].
  simpl. rewrite (H q (or_introl eq_refl)). apply IH.
  intros x Hx. apply H. right. exact Hx.
Qed.

Lemma msub_no_rules : forall s, msub [] s = s.
Proof.
  induction s as [|c s IH]; [reflexivity|].
  rewrite msub_miss by reflexivity. rewrite IH. reflexivity.
Qed.

Lemma clashb_sound w : forall t rest,
  clashb w t = true -> word_opt (hd_error rest) = false ->
  pm w (t ++ rest) = false.
Proof.
  induction w as [|x w IH]; intros [|d t] rest H Hr; simpl in *; try discriminate.
  - rewrite H. reflexivity.
  - destruct rest as [|e rest]; [reflexivity|]. simpl in Hr.
    destruct (x =? e)%N eqn:E; [|reflexivity].
    apply N.eqb_eq in E. subst e. congruence.
  - apply orb_true_iff in H as [H|H].
    + apply negb_true_iff in H. rewrite H. reflexivity.
    + rewrite (IH _ _ H Hr). apply andb_false_r.
Qed.

Lemma pm_self w : forall rest, pm w (w ++ rest) = negb (word_opt (hd_error rest)).
Proof.
  induction w as [|c w IH]; intro rest; simpl; [reflexivity|].
  rewrite N.eqb_refl. apply IH.
Qed.

Lemma pm_boundary w s : pm w s = true ->
  word_opt (hd_error (skipn (length w) s)) = false.
Proof.
  intro H. pose proof H as H'. rewrite (pm_split w s H), pm_self in H'.
  apply negb_true_iff in H'. exact H'.
Qed.

Lemma skipn_app_exact {A} (l r : list A) : skipn (length l) (l ++ r) = r.
Proof. induction l as [|x l IH]; simpl; [reflexivity | exact IH]. Qed.

Section Apart.

Variables w r : text.
Hypothesis w_wordy' : wordy w = true.
Hypothesis w_head : same_head (w, r) = true.

Lemma ssub_head_word s :
  word_opt (hd_error (ssub w r s)) = word_opt (hd_error s).
Proof.
  destruct s as [|c s]; [rewrite (ssub_nil w r w_wordy'); reflexivity|].
  destruct (pm w (c :: s)) eqn:E.
  - rewrite (ssub_hit w r w_wordy' _ E). unfold same_head in w_head. simpl in w_head.
    destruct w as [|x w']; [discriminate|]. destruct r as [|y r']; [discriminate|].
    apply N.eqb_eq in w_head. subst y. simpl in E.
    apply andb_true_iff in E as [E _]. apply N.eqb_eq in E. subst x. reflexivity.
  - rewrite (ssub_miss w r w_wordy' _ _ E). reflexivity.
Qed.

(** The scan for [w] walks over a text it cannot match in. *)
Lemma ssub_over_b : forall t rest,
  forallb (clashb w) (tails t) = true -> word_opt (hd_error rest) = false ->
  ssub w r (t ++ rest) = t ++ ssub w r rest.
Proof.
  induction t as [|d t IH]; intros rest Ht Hr; [reflexivity|].
  simpl in Ht. apply andb_true_iff in Ht as [Hd Ht].
  simpl. rewrite (ssub_miss w r w_wordy').
  - f_equal. apply IH; assumption.
  - apply (clashb_sound w (d :: t) rest Hd Hr).
Qed.

Variable wq : text.
Hypothesis wq_wordy' : wordy wq = true.
Hypothesis wq_through : all_suffix_clash wq r = true.
Hypothesis wq_inside : forallb (clashb w) (tails (tl wq)) = true.

(** A match of [wq] where [w] does not match is still there after the
    pass for [w], and so is what follows it. *)
Lemma pm_kept s : pm wq s = true -> pm w s = false ->
  pm wq (ssub w r s) = true
  /\ skipn (length wq) (ssub w r s) = ssub w r (skipn (length wq) s).
Proof.
  intros Hq Hw. pose proof (pm_boundary wq s Hq) as Hb.
  pose proof (pm_split wq s Hq) as Hs.
  remember (skipn (length wq) s) as rest eqn:Hrest.
  destruct wq as [|c wq'] eqn:Ewq; [discriminate|].
  assert (E : ssub w r s = (c :: wq') ++ ssub w r rest).
  { rewrite Hs at 1. simpl. rewrite (ssub_miss w r w_wordy').
    - f_equal. apply ssub_over_b; assumption.
    - rewrite Hs in Hw. exact Hw. }
  rewrite E. split.
  - rewrite pm_self, ssub_head_word, Hb. reflexivity.
  - apply skipn_app_exact.
Qed.

Lemma pm_same s : pm w s = false -> pm wq (ssub w r s) = pm wq s.
Proof.
  intro Hw. destruct (pm wq s) eqn:E.
  - apply (pm_kept s E Hw).
  - destruct (pm wq (ssub w r s)) eqn:E'; [|reflexivity].
    apply (pm_through w r w_wordy' s wq wq_through) in E'. congruence.
Qed.

End Apart.

Section OnePass.

Variable U : list (text * text).
Hypothesis U_coherent : coherent U = true.

Lemma U_wordy x : In x U -> wordy (fst x) = true.
Proof.
  intro Hx. unfold coherent in U_coherent. rewrite forallb_forall in U_coherent.
  specialize (U_coherent x Hx). apply andb_true_iff in U_coherent as [H _]. exact H.
Qed.

Lemma U_apart x y : In x U -> In y U -> apart x y = true.
Proof.
  intros Hx Hy. unfold coherent in U_coherent. rewrite forallb_forall in U_coherent.
  specialize (U_coherent x Hx). apply andb_true_iff in U_coherent as [_ H].
  rewrite forallb_forall in H. exact (H y Hy).
Qed.

Lemma apart_parts x y : apart x y = true ->
  ok_pair (fst y) x = true
  /\ clash (fst y) (snd x) = true
  /\ forallb (clashb (fst x)) (tails (tl (fst y))) = true
  /\ same_head x = true
  /\ (same_rule x y || clash (fst x) (fst y) || clash (fst y) (fst x)) = true.
Proof.
  unfold apart. intro H.
  apply andb_true_iff in H as [H H5]. apply andb_true_iff in H as [H H4].
  apply andb_true_iff in H as [H H3]. apply andb_true_iff in H as [H1 H2].
  repeat split; assumption.
Qed.

(** The simultaneous pass walks over a replacement. *)
Lemma msub_over rs x : In x U -> incl rs U ->
  forall t z, incl (tails t) (tails (snd x)) ->
    msub rs (t ++ z) = t ++ msub rs z.
Proof.
  intros Hx Hrs. induction t as [|d t IH]; intros z Ht; [reflexivity|].
  simpl. rewrite msub_miss.
  - f_equal. apply IH. intros u Hu. apply Ht. right. exact Hu.
  - apply hit_rule_all_false. intros q Hq.
    destruct (apart_parts x q (U_apart x q Hx (Hrs q Hq))) as [Hok [Hc _]].
    assert (Hin : In (d :: t) (tails (snd x))) by (apply Ht; left; reflexivity).
    change (d :: t ++ z) with ((d :: t) ++ z). apply clash_sound.
    destruct (snd x) as [|e r'] eqn:Er; [destruct Hin|].
    destruct Hin as [<-|Hin]; [exact Hc|].
    unfold ok_pair in Hok. rewrite Er in Hok. simpl in Hok.
    apply andb_true_iff in Hok as [_ Hok].
    rewrite forallb_forall in Hok. apply Hok. exact Hin.
Qed.

(** One rule applied before the simultaneous pass of the others is the
    simultaneous pass of all of them. *)
Lemma msub_cons w r rs : In (w, r) U -> incl rs U ->
  forall n s, length s <= n -> msub rs (ssub w r s) = msub ((w, r) :: rs) s.
Proof.
  intros Hx Hrs. pose proof (U_wordy _ Hx) as Hw. simpl in Hw.
  induction n as [|n IH]; intros s Hn.
  - destruct s; [|simpl in Hn; lia]. rewrite (ssub_nil w r Hw). reflexivity.
  - destruct s as [|c s]; [rewrite (ssub_nil w r Hw); reflexivity|].
    destruct (pm w (c :: s)) eqn:E.
    + rewrite (ssub_hit w r Hw _ E).
      rewrite (msub_over rs (w, r) Hx Hrs r _ (incl_refl _)).
      rewrite (msub_hit ((w, r) :: rs) (c :: s) w r).
      * f_equal. apply IH. rewrite length_skipn.
        pose proof (w_length w Hw). cbn [length] in Hn |- *. lia.
      * unfold hit_rule. simpl. rewrite E. reflexivity.
      * apply (w_length w Hw).
      * apply (pm_length _ _ E).
    + assert (Hsame : forall q, In q rs ->
                pm (fst q) (ssub w r (c :: s)) = pm (fst q) (c :: s)).
      { intros q Hq.
        destruct (apart_parts (w, r) q (U_apart _ q Hx (Hrs q Hq)))
          as [Hok [_ [Hin [Hh _]]]].
        apply (pm_same w r Hw Hh (fst q) (U_wordy q (Hrs q Hq))); [| exact Hin | exact E].
        unfold ok_pair in Hok. apply andb_true_iff in Hok as [Hok _]. exact Hok. }
      assert (Hhit : hit_rule ((w, r) :: rs) (c :: s) = hit_rule rs (c :: s)).
      { unfold hit_rule. simpl. rewrite E. reflexivity. }
      pose proof (hit_rule_ext rs _ _ Hsame) as Hext.
      destruct (hit_rule rs (c :: s)) as [[wq rq]|] eqn:Hq.
      * apply hit_rule_some in Hq as [Hqin Hqpm].
        pose proof (U_wordy _ (Hrs _ Hqin)) as Hqw. simpl in Hqw.
        destruct (apart_parts (w, r) (wq, rq) (U_apart _ _ Hx (Hrs _ Hqin)))
          as [Hok [_ [Hin [Hh _]]]].
        unfold ok_pair in Hok. apply andb_true_iff in Hok as [Hok _].
        destruct (pm_kept w r Hw Hh wq Hqw Hok Hin (c :: s) Hqpm E) as [Hk1 Hk2].
        rewrite (msub_hit rs (ssub w r (c :: s)) wq rq Hext (w_length wq Hqw)
                   (pm_length _ _ Hk1)).
        rewrite (msub_hit ((w, r) :: rs) (c :: s) wq rq Hhit (w_length wq Hqw)
                   (pm_length _ _ Hqpm)).
        rewrite Hk2. f_equal. apply IH. rewrite length_skipn.
        pose proof (w_length wq Hqw). cbn [length] in Hn |- *. lia.
      * rewrite (ssub_miss w r Hw c s E) in Hext |- *.
        rewrite (msub_miss rs _ _ Hext), (msub_miss _ c s Hhit).
        f_equal. apply IH. simpl in Hn. lia.
Qed.

Lemma run_rules_msub : forall rs, incl rs U ->
  forall s, run_rules rs s = msub rs s.
Proof.
  induction rs as [|[w r] rs IH]; intros Hrs s; [symmetry; apply msub_no_rules|].
  simpl. assert (Hrs' : incl rs U) by (intros x Hx; apply Hrs; right; exact Hx).
  rewrite (IH Hrs').
  apply (msub_cons w r rs (Hrs _ (or_introl eq_refl)) Hrs' (length s) s (le_n _)).
Qed.

End OnePass.

Lemma rules_coherent : coherent rules = true.
Proof. vm_compute. reflexivity. Qed.

(** X9. The twenty substitutions applied one after the other amount to one
    pass: the transform equals a single left-to-right scan that, at each
    position, replaces the token of whichever table entry matches there. *)
Theorem transform_is_one_pass (F : text) :
  transform F = Some (msub rules F).
Proof.
  rewrite transform_run. f_equal.
  apply (run_rules_msub rules rules_coherent rules (incl_refl _)).
Qed.

(** ** The order of the table *)

Lemma same_rule_eq x y : same_rule x y = true -> x = y.
Proof.
  unfold same_rule. intro H. apply andb_true_iff in H as [H1 H2].
  apply text_eqb_eq in H1, H2. destruct x, y. simpl in *. congruence.
Qed.

Lemma pm_exclusive x y s :
  (same_rule x y || clash (fst x) (fst y) || clash (fst y) (fst x)) = true ->
  pm (fst x) s = true -> pm (fst y) s = true -> x = y.
Proof.
  intros H Hx Hy. apply orb_true_iff in H as [H|H];
    [apply orb_true_iff in H as [H|H]|].
  - apply same_rule_eq. exact H.
  - rewrite (pm_split _ _ Hy), (clash_sound _ _ _ H) in Hx. discriminate.
  - rewrite (pm_split _ _ Hx), (clash_sound _ _ _ H) in Hy. discriminate.
Qed.

Section Order.

Variable U : list (text * text).
Hypothesis U_coherent : coherent U = true.

Lemma hit_rule_perm rs rs' s : Permutation rs rs' -> incl rs U ->
  hit_rule rs s = hit_rule rs' s.
Proof.
  intros Hp Hrs.
  destruct (hit_rule rs s) as [[w r]|] eqn:E.
  - apply hit_rule_some in E as [Hin Hpm].
    destruct (hit_rule rs' s) as [[w' r']|] eqn:E'.
    + apply hit_rule_some in E' as [Hin' Hpm'].
      apply (Permutation_in _ (Permutation_sym Hp)) in Hin'.
      destruct (apart_parts _ _ (U_apart U U_coherent _ _ (Hrs _ Hin) (Hrs _ Hin')))
        as [_ [_ [_ [_ Hex]]]].
      rewrite (pm_exclusive _ _ s Hex Hpm Hpm'). reflexivity.
    + pose proof (hit_rule_none _ _ E' (w, r) (Permutation_in _ Hp Hin)) as H.
      simpl in H. congruence.
  - symmetry. apply hit_rule_all_false. intros q Hq.
    apply (hit_rule_none _ _ E). apply (Permutation_in _ (Permutation_sym Hp) Hq).
Qed.

Lemma msub_perm rs rs' : Permutation rs rs' -> incl rs U ->
  forall n s, length s <= n -> msub rs s = msub rs' s.
Proof.
  intros Hp Hrs. induction n as [|n IH]; intros s Hn.
  - destruct s; [reflexivity | simpl in Hn; lia].
  - destruct s as [|c s]; [reflexivity|].
    pose proof (hit_rule_perm rs rs' (c :: s) Hp Hrs) as Hh.
    destruct (hit_rule rs (c :: s)) as [[w r]|] eqn:E.
    + pose proof (hit_rule_some _ _ _ _ E) as [Hin Hpm].
      pose proof (U_wordy U U_coherent _ (Hrs _ Hin)) as Hw. simpl in Hw.
      rewrite (msub_hit rs _ w r E (w_length w Hw) (pm_length _ _ Hpm)).
      rewrite (msub_hit rs' _ w r (eq_sym Hh) (w_length w Hw) (pm_length _ _ Hpm)).
      f_equal. apply IH. rewrite length_skipn.
      pose proof (w_length w Hw). cbn [length] in Hn |- *. lia.
    + rewrite (msub_miss rs c s E), (msub_miss rs' c s (eq_sym Hh)).
      f_equal. apply IH. simpl in Hn. lia.
Qed.

End Order.

Lemma run_rules_perm rs : Permutation rules rs ->
  forall s, run_rules rs s = run_rules rules s.
Proof.
  intros Hp s.
  assert (Hin : incl rs rules).
  { intros x Hx. apply (Permutation_in _ (Permutation_sym Hp) Hx). }
  rewrite (run_rules_msub rules rules_coherent rs Hin).
  rewrite (run_rules_msub rules rules_coherent rules (incl_refl _)).
  symmetry.
  apply (msub_perm rules rules_coherent rules rs Hp (incl_refl _) (length s) s (le_n _)).
Qed.

(** X10. The order of the table does not matter: applying the entries of
    [MAPPINGS] in any other order gives the same result as the transform
    on every content. *)
Theorem transform_any_order (items : list (string * string)) (F : text) :
  Permutation MAPPINGS items ->
  apply_items items F = transform F.
Proof.
  intro Hp. rewrite transform_run.
  rewrite (apply_items_run items).
  - f_equal. apply run_rules_perm. unfold rules. apply Permutation_map. exact Hp.
  - apply (Permutation_Forall Hp). exact MAPPINGS_simple.
Qed.

(** ** Tokens at a boundary *)

Lemma pm_in_app w t : all_suffix_clash w t = true ->
  forall a z, pm w (a ++ t ++ z) = pm_in w a.
Proof.
  induction w as [|x w IH]; intros Hw a z.
  - destruct a as [|d a]; [|reflexivity].
    apply (clash_sound [] t z). apply all_suffix_clash_head. exact Hw.
  - destruct a as [|d a].
    + apply (clash_sound (x :: w) t z). apply all_suffix_clash_head. exact Hw.
    + simpl. rewrite IH; [reflexivity|].
      apply all_suffix_clash_tail in Hw. exact Hw.
Qed.

Lemma pm_before_token w t d a z : all_suffix_clash (tl w) t = true ->
  pm w ((d :: a) ++ t ++ z) = pm_in w (d :: a).
Proof.
  intro Hw. destruct w as [|x w].
  - reflexivity.
  - simpl in Hw |- *. rewrite (pm_in_app w t Hw). reflexivity.
Qed.

Lemma find_agree {A} (f g : A -> bool) : forall l,
  (forall x, In x l -> f x = g x) -> find f l = find g l.
Proof.
  induction l as [|x l IH]; intro H; [reflexivity|].
  simpl. rewrite (H x (or_introl eq_refl)). destruct (g x); [reflexivity|].
  apply IH. intros y Hy. apply H. right. exact Hy.
Qed.

Lemma rules_reach :
  forallb (fun x => forallb (fun q => all_suffix_clash (tl (fst q)) (fst x)) rules)
          rules = true.
Proof. vm_compute. reflexivity. Qed.

Section AtBoundary.

Variables wp rp : text.
Hypothesis wp_in : In (wp, rp) rules.

Lemma wp_reach q : In q rules -> all_suffix_clash (tl (fst q)) wp = true.
Proof.
  intro Hq. pose proof rules_reach as H. rewrite forallb_forall in H.
  specialize (H _ wp_in). cbv beta in H. rewrite forallb_forall in H.
  exact (H q Hq).
Qed.

Lemma msub_at_token b : word_opt (hd_error b) = false ->
  msub rules (wp ++ b) = rp ++ msub rules b.
Proof.
  intro Hb. pose proof (U_wordy rules rules_coherent _ wp_in) as Hw. simpl in Hw.
  assert (Hpm : pm wp (wp ++ b) = true) by (rewrite pm_self, Hb; reflexivity).
  destruct (hit_rule rules (wp ++ b)) as [[w r]|] eqn:E.
  - pose proof (hit_rule_some _ _ _ _ E) as [Hin Hpm'].
    destruct (apart_parts _ _ (U_apart rules rules_coherent _ _ Hin wp_in))
      as [_ [_ [_ [_ Hex]]]].
    pose proof (pm_exclusive (w, r) (wp, rp) _ Hex Hpm' Hpm) as Heq.
    injection Heq as -> ->.
    rewrite (msub_hit rules _ wp rp E (w_length wp Hw) (pm_length _ _ Hpm)).
    rewrite skipn_app_exact. reflexivity.
  - pose proof (hit_rule_none _ _ E _ wp_in) as H. simpl in H. congruence.
Qed.

Lemma msub_before_token : forall n a, length a <= n ->
  exists a', forall z, msub rules (a ++ wp ++ z) = a' ++ msub rules (wp ++ z).
Proof.
  induction n as [|n IH]; intros a Hn.
  - destruct a; [|simpl in Hn; lia]. exists []. reflexivity.
  - destruct a as [|d a]; [exists []; reflexivity|].
    assert (Hext : forall z, hit_rule rules ((d :: a) ++ wp ++ z)
                             = find (fun q => pm_in (fst q) (d :: a)) rules).
    { intro z. unfold hit_rule. apply find_agree. intros q Hq.
      apply pm_before_token. apply wp_reach. exact Hq. }
    destruct (find (fun q => pm_in (fst q) (d :: a)) rules) as [[wq rq]|] eqn:E.
    + apply find_some in E as [Hin Hpm]. simpl in Hpm.
      pose proof (U_wordy rules rules_coherent _ Hin) as Hw. simpl in Hw.
      pose proof (pm_in_length _ _ Hpm) as Hl. pose proof (w_length wq Hw) as H0.
      destruct (IH (skipn (length wq) (d :: a))) as [a' Ha'].
      { rewrite length_skipn. cbn [length] in Hn |- *. lia. }
      exists (rq ++ a'). intro z.
      rewrite (msub_hit rules _ wq rq (Hext z) H0)
        by (rewrite length_app; lia).
      rewrite skipn_app. replace (length wq - length (d :: a)) with 0 by lia.
      simpl skipn at 2. rewrite Ha', app_assoc. reflexivity.
    + destruct (IH a) as [a' Ha']; [simpl in Hn; lia|].
      exists (d :: a'). intro z.
      change ((d :: a) ++ wp ++ z) with (d :: (a ++ wp ++ z)).
      rewrite msub_miss by (exact (Hext z)).
      rewrite Ha'. reflexivity.
Qed.

End AtBoundary.

(** X11. Every token at a boundary is rewritten: an occurrence of a mapped
    search token that is followed by the end of the content or by a
    character that is not a word character is replaced by the entry's
    replacement, whatever comes before it (the patterns have no boundary on
    the left, so also right after an identifier character), and what
    follows is transformed on its own. *)
Theorem token_at_boundary_rewritten (p r : string) (a : text) :
  In (p, r) MAPPINGS ->
  exists a', forall b, word_opt (hd_error b) = false ->
    exists b',
      transform (a ++ token p ++ b) = Some (a' ++ codes r ++ b')
      /\ transform b = Some b'.
Proof.
  intro Hin. pose proof (in_rules p r Hin) as Hr.
  destruct (msub_before_token (token p) (codes r) Hr (length a) a (le_n _))
    as [a' Ha'].
  exists a'. intros b Hb. exists (msub rules b).
  rewrite !transform_run.
  rewrite !(run_rules_msub rules rules_coherent rules (incl_refl _)).
  rewrite Ha', (msub_at_token (token p) (codes r) Hr b Hb). split; reflexivity.
Qed.

End WithUnicode.

(** * The small run *)

Lemma token_with_suffix_kept_witness :
  In ("crate::app\b", "crate::core::app")%string MAPPINGS
  /\ exists a', forall c b, is_word ascii_only c = true ->
       exists b',
         transform ascii_only (codes "use " ++ token "crate::app\b" ++ c :: b)
         = Some (a' ++ token "crate::app\b" ++ c :: b')
         /\ transform ascii_only (c :: b) = Some (c :: b').
Proof.
  split; [left; reflexivity|].
  apply (token_with_suffix_kept ascii_only "crate::app\b" "crate::core::app").
  left. reflexivity.
Defined.

Lemma write_iff_changed_witness :
  files small_world app_rs = File (codes "use crate::app::Foo;") WriteOk
  /\ exists transformed,
       transform ascii_only (codes "use crate::app::Foo;") = Some transformed
       /\ (transformed = codes "use crate::app::Foo;" ->
           process_file ascii_only app_rs small_world = (Returned, small_world))
       /\ (transformed <> codes "use crate::app::Foo;" -> WriteOk = WriteOk ->
           exists w', process_file ascii_only app_rs small_world = (Returned, w')
             /\ files w' app_rs = File transformed WriteOk
             /\ console w' = console small_world ++ [("Updated " ++ app_rs)%string]
             /\ forall q, q <> app_rs -> files w' q = files small_world q).
Proof.
  split; [reflexivity|].
  apply (write_iff_changed ascii_only app_rs small_world
           (codes "use crate::app::Foo;") WriteOk).
  reflexivity.
Defined.

Lemma no_match_no_change_witness :
  (forall p r, In (p, r) MAPPINGS -> re_search ascii_only p [] = Some false)
  /\ transform ascii_only [] = Some []
  /\ forall path w wm, files w path = File [] wm ->
       process_file ascii_only path w = (Returned, w).
Proof.
  assert (H : forall p r, In (p, r) MAPPINGS ->
                re_search ascii_only p [] = Some false).
  { intros p r Hin.
    repeat (destruct Hin as [Hin|Hin];
            [injection Hin as <- <-; vm_compute; reflexivity|]).
    destruct Hin. }
  split; [exact H|]. apply (no_match_no_change ascii_only []). exact H.
Defined.

Lemma failure_aborts_walk_witness :
  calls "\"%char (walk "\"%char src_dir small_tree) = [app_rs] ++ broken_rs :: [late_rs]
  /\ process_all ascii_only [app_rs] small_world
     = (Returned, snd (process_all ascii_only [app_rs] small_world))
  /\ io_failure ascii_only broken_rs
       (snd (process_all ascii_only [app_rs] small_world)) PermissionError
  /\ exists w2,
       main ascii_only "\"%char small_tree small_world = (Raised PermissionError, w2)
       /\ console w2 = console (snd (process_all ascii_only [app_rs] small_world))
       /\ (forall q, q <> broken_rs ->
             files w2 q
             = files (snd (process_all ascii_only [app_rs] small_world)) q)
       /\ (forall q, ~ In q [app_rs] -> q <> broken_rs ->
             files w2 q = files small_world q).
Proof.
  assert (Hio : io_failure ascii_only broken_rs
                  (snd (process_all ascii_only [app_rs] small_world))
                  PermissionError).
  { apply read_failure. vm_compute. reflexivity. }
  assert (Hc : calls "\"%char (walk "\"%char src_dir small_tree)
               = [app_rs] ++ broken_rs :: [late_rs]).
  { vm_compute. reflexivity. }
  assert (Hpre : process_all ascii_only [app_rs] small_world
                 = (Returned, snd (process_all ascii_only [app_rs] small_world))).
  { vm_compute. reflexivity. }
  split; [exact Hc|]. split; [exact Hpre|]. split; [exact Hio|].
  apply (failure_aborts_walk ascii_only "\"%char small_tree [app_rs] [late_rs]
           broken_rs small_world); [exact Hc | exact Hpre | exact Hio].
Defined.

Lemma process_file_deterministic_witness :
  files small_world app_rs = files (World small_files ["earlier"%string]) app_rs
  /\ fst (process_file ascii_only app_rs small_world)
     = fst (process_file ascii_only app_rs (World small_files ["earlier"%string]))
  /\ files (snd (process_file ascii_only app_rs small_world)) app_rs
     = files (snd (process_file ascii_only app_rs
                     (World small_files ["earlier"%string]))) app_rs
  /\ exists out,
       console (snd (process_file ascii_only app_rs small_world))
       = console small_world ++ out
       /\ console (snd (process_file ascii_only app_rs
                          (World small_files ["earlier"%string])))
          = console (World small_files ["earlier"%string]) ++ out.
Proof.
  split; [reflexivity|].
  apply (process_file_deterministic ascii_only app_rs small_world
           (World small_files ["earlier"%string])).
  reflexivity.
Defined.

(** ** The further properties on the small run *)

Lemma transform_splits_at_separator_witness :
  is_word ascii_only 32 = false /\ 32%N <> 58%N
  /\ exists x' y',
       transform ascii_only (codes "use crate::app") = Some x'
       /\ transform ascii_only (codes "crate::window;") = Some y'
       /\ transform ascii_only (codes "use crate::app" ++ 32%N :: codes "crate::window;")
          = Some (x' ++ 32%N :: y').
Proof.
  split; [reflexivity|]. split; [discriminate|].
  apply (transform_splits_at_separator ascii_only 32
           (codes "use crate::app") (codes "crate::window;"));
    [reflexivity | discriminate].
Defined.

Lemma process_file_again_witness :
  process_file ascii_only app_rs small_world
  = (Returned, snd (process_file ascii_only app_rs small_world))
  /\ process_file ascii_only app_rs (snd (process_file ascii_only app_rs small_world))
     = (Returned, snd (process_file ascii_only app_rs small_world)).
Proof.
  assert (H : process_file ascii_only app_rs small_world
              = (Returned, snd (process_file ascii_only app_rs small_world))).
  { vm_compute. reflexivity. }
  split; [exact H|].
  apply (process_file_again ascii_only app_rs small_world). exact H.
Defined.

Lemma main_again_witness :
  main ascii_only "\"%char tidy_tree small_world
  = (Returned, snd (main ascii_only "\"%char tidy_tree small_world))
  /\ main ascii_only "\"%char tidy_tree
       (snd (main ascii_only "\"%char tidy_tree small_world))
     = (Returned, snd (main ascii_only "\"%char tidy_tree small_world)).
Proof.
  assert (H : main ascii_only "\"%char tidy_tree small_world
              = (Returned, snd (main ascii_only "\"%char tidy_tree small_world))).
  { vm_compute. reflexivity. }
  split; [exact H|].
  apply (main_again ascii_only "\"%char tidy_tree small_world). exact H.
Defined.

Lemma main_rewrites_selected_witness :
  (forall p, In p (calls "\"%char (walk "\"%char src_dir tidy_tree)) ->
     exists c, files small_world p = File c WriteOk)
  /\ exists w', main ascii_only "\"%char tidy_tree small_world = (Returned, w')
       /\ (forall p c, In p (calls "\"%char (walk "\"%char src_dir tidy_tree)) ->
             files small_world p = File c WriteOk ->
             exists c', transform ascii_only c = Some c'
                        /\ files w' p = File c' WriteOk)
       /\ (forall q, ~ In q (calls "\"%char (walk "\"%char src_dir tidy_tree)) ->
             files w' q = files small_world q).
Proof.
  assert (H : forall p, In p (calls "\"%char (walk "\"%char src_dir tidy_tree)) ->
                exists c, files small_world p = File c WriteOk).
  { intros p Hp. vm_compute in Hp.
    destruct Hp as [<-|[<-|[]]]; eexists; vm_compute; reflexivity. }
  split; [exact H|].
  apply (main_rewrites_selected ascii_only "\"%char tidy_tree small_world). exact H.
Defined.

Lemma main_keeps_other_files_witness :
  endswith notes_txt ".rs" = false
  /\ files (snd (main ascii_only "\"%char small_tree small_world)) notes_txt
     = files small_world notes_txt.
Proof.
  split; [reflexivity|].
  apply (main_keeps_other_files ascii_only "\"%char small_tree small_world notes_txt).
  reflexivity.
Defined.

Lemma main_keeps_root_lib_rs_witness :
  ~ In "\"%char (list_ascii_of_string "lib.rs")
  /\ files (snd (main ascii_only "\"%char small_tree small_world))
           (path_join "\"%char src_dir "lib.rs")
     = files small_world (path_join "\"%char src_dir "lib.rs").
Proof.
  assert (H : ~ In "\"%char (list_ascii_of_string "lib.rs")).
  { simpl. intros [H|[H|[H|[H|[H|[H|[]]]]]]]; discriminate. }
  split; [exact H|].
  apply (main_keeps_root_lib_rs ascii_only "\"%char small_tree small_world). exact H.
Defined.


Lemma transform_any_order_witness :
  Permutation MAPPINGS
    (("crate::window\b", "crate::core::window")%string
     :: ("crate::app\b", "crate::core::app")%string :: tl (tl MAPPINGS))
  /\ apply_items ascii_only
       (("crate::window\b", "crate::core::window")%string
        :: ("crate::app\b", "crate::core::app")%string :: tl (tl MAPPINGS))
       (codes "use crate::window; use crate::app;")
     = transform ascii_only (codes "use crate::window; use crate::app;").
Proof.
  assert (H : Permutation MAPPINGS
                (("crate::window\b", "crate::core::window")%string
                 :: ("crate::app\b", "crate::core::app")%string :: tl (tl MAPPINGS))).
  { apply perm_swap. }
  split; [exact H|].
  apply (transform_any_order ascii_only _ (codes "use crate::window; use crate::app;")).
  exact H.
Defined.

Lemma token_at_boundary_rewritten_witness :
  In ("crate::engine\b", "crate::services::engine_bridge")%string MAPPINGS
  /\ exists a', forall b, word_opt ascii_only (hd_error b) = false ->
       exists b',
         transform ascii_only (codes "use my" ++ token "crate::engine\b" ++ b)
         = Some (a' ++ codes "crate::services::engine_bridge" ++ b')
         /\ transform ascii_only b = Some b'.
Proof.
  assert (H : In ("crate::engine\b", "crate::services::engine_bridge")%string MAPPINGS).
  { do 7 right. left. reflexivity. }
  split; [exact H|].
  apply (token_at_boundary_rewritten ascii_only "crate::engine\b"
           "crate::services::engine_bridge" (codes "use my")).
  exact H.
Defined.

(** ** The model on concrete inputs *)

Example sub_boundary_only :
  sub ascii_only [WordB] (codes "-") (codes "ab cd") = codes "-ab- -cd-".
Proof. vm_compute. reflexivity. Qed.

Example transform_inside_identifier :
  transform ascii_only (codes "mycrate::app crate::app_state crate::engine;")
  = Some (codes "mycrate::core::app crate::app_state crate::services::engine_bridge;").
Proof. vm_compute. reflexivity. Qed.

Example endswith_rs :
  (endswith "lib.rs" ".rs", endswith ".rs" ".rs", endswith "rs" ".rs",
   endswith "a.rsx" ".rs") = (true, true, false, false).
Proof. vm_compute. reflexivity. Qed.

Example calls_lib_rs :
  calls "\"%char
    (walk "\"%char src_dir
       (Dir "src" ["lib.rs"; "main.rs"; "notes.txt"]%string
            [Dir "ui" ["lib.rs"]%string []]))
  = [ "c:\dev\Luminara-Engine\crates\luminara_editor\src\main.rs";
      "c:\dev\Luminara-Engine\crates\luminara_editor\src\ui\lib.rs" ]%string.
Proof. vm_compute. reflexivity. Qed.

Example main_small_run :
  let r := main ascii_only "\"%char small_tree small_world in
  fst r = Raised PermissionError
  /\ console (snd r) = [("Updated " ++ app_rs)%string]
  /\ files (snd r) app_rs = File (codes "use crate::core::app::Foo;") WriteOk
  /\ files (snd r) late_rs = File (codes "use crate::window;") WriteOk.
Proof. vm_compute. repeat split. Qed.
